(* ===================================================================== *)
(* FriendlyFire: staggered rolling restarts of docker-compose services.   *)
(*                                                                         *)
(* Shallow embedding of the class FriendlyFire (constructor,              *)
(* _getServiceEnv, _sortContainersByAge, _updateServiceMapping,           *)
(* _containerIdDisplay, _updateMemory, _worker) and the properties of the *)
(* rollover coordination engine.                                          *)
(*                                                                         *)
(* The program is modelled twice over the same pieces of code: as         *)
(* functions in a state-and-exception monad (one turn of the discovery    *)
(* loop, one pass of the worker, each run without interruption), and as   *)
(* two coroutines on one event loop that may interleave at every yield.   *)
(* Time and the docker daemon are an oracle indexed by the number of      *)
(* consultations made so far.                                             *)
(* ===================================================================== *)

From Stdlib Require Import ZArith Lia String Ascii List Permutation Bool Sorted.
From stdpp Require Import base option strings list gmap.

Local Open Scope Z_scope.

(* --------------------------------------------------------------------- *)
(* JavaScript primitives used by the program                              *)
(* --------------------------------------------------------------------- *)

Module Js.

(* String.prototype.toLowerCase, on strings of ASCII characters. *)
Definition lower_ascii (c : ascii) : ascii :=
  let n := nat_of_ascii c in
  if (Nat.leb 65 n && Nat.leb n 90)%bool then ascii_of_nat (n + 32) else c.

Fixpoint toLowerCase (s : string) : string :=
  match s with
  | EmptyString => EmptyString
  | String c r => String (lower_ascii c) (toLowerCase r)
  end.

Definition comma : ascii := ascii_of_nat 44.

(* String.prototype.split(','): the pieces between the commas, empty
   pieces included; the empty string splits into one empty piece. *)
Fixpoint split (s : string) : list string :=
  match s with
  | EmptyString => [EmptyString]
  | String c r =>
      if Ascii.eqb c comma then EmptyString :: split r
      else match split r with
           | h :: t => String c h :: t
           | [] => [String c EmptyString]
           end
  end.

(* String.prototype.slice(0, n). *)
Fixpoint slice0 (n : nat) (s : string) : string :=
  match n, s with
  | S k, String c r => String c (slice0 k r)
  | _, _ => EmptyString
  end.

(* A value that is either a string or undefined: what Array.prototype.shift
   hands back, and so what the rotated arrays may hold. *)
Inductive value : Type :=
  | undefined
  | str (s : string).

#[global] Instance value_eq_dec : EqDecision value.
Proof. solve_decision. Defined.

(* Array.prototype.includes with strict equality. *)
Definition includes (l : list value) (x : value) : bool :=
  bool_decide (x ∈ l).

(* Array.prototype.some. *)
Definition some {A} (p : A -> bool) (l : list A) : bool := existsb p l.

(* Array.prototype.shift: removes and returns the first element;
   undefined on an empty array. *)
Definition shift (l : list value) : value * list value :=
  match l with
  | [] => (undefined, [])
  | h :: t => (h, t)
  end.

(* Array.prototype.push of one element. *)
Definition push (l : list value) (x : value) : list value := l ++ [x].

(* Array.prototype.sort(comparefn), as the engine runs it on the short
   arrays this program sorts: straight insertion, each element moved left
   past every predecessor tmp with comparefn(tmp, element) > 0. *)
Section Sort.
Context {A : Type} (comparefn : A -> A -> Z).

(* [insert_left rev_prefix element]: rev_prefix is the sorted prefix
   a[from..i-1] read from a[i-1] down to a[from]. *)
Fixpoint insert_left (rev_prefix : list A) (element : A) : list A :=
  match rev_prefix with
  | [] => [element]
  | tmp :: rest =>
      if Z.ltb 0 (comparefn tmp element)
      then tmp :: insert_left rest element
      else element :: tmp :: rest
  end.

Definition sort (a : list A) : list A :=
  rev (fold_left insert_left a []).
End Sort.

End Js.

Export Js(value, undefined, str).

(* --------------------------------------------------------------------- *)
(* Exceptions                                                             *)
(* --------------------------------------------------------------------- *)

Inductive result (A : Type) : Type :=
  | Ok (a : A)
  | Throw (message : string).
Arguments Ok {A} a.
Arguments Throw {A} message.

(* --------------------------------------------------------------------- *)
(* _getServiceEnv                                                         *)
(* --------------------------------------------------------------------- *)

(* process.env['FF_SERVICES'] is None when the variable is not set; the
   test [!services] holds for undefined and for the empty string. *)
Definition _getServiceEnv (FF_SERVICES : option string) : result (list string) :=
  match FF_SERVICES with
  | None => Throw "Invalid services given"%string
  | Some services =>
      if bool_decide (services = EmptyString)
      then Throw "Invalid services given"%string
      else Ok (Js.split (Js.toLowerCase services))
  end.

(* --------------------------------------------------------------------- *)
(* Data model                                                             *)
(* --------------------------------------------------------------------- *)

(* The constants and the service list of this._config. *)
Record Config := {
  rolloverInterval : Z;
  initialDebounce : Z;
  serviceRerollDistance : Z;
  services : list string
}.

Definition default_config (services : list string) : Config :=
  {| rolloverInterval := 30 * 60 * 1000;
     initialDebounce := 5 * 60 * 1000;
     serviceRerollDistance := 5 * 60 * 1000;
     services := services |}.

(* The earlier revision of the program (src/index.js) has the same
   functions without the reroll distance: its due times are those of this
   model with serviceRerollDistance = 0. *)
Definition unstaggered_config (services : list string) : Config :=
  {| rolloverInterval := 30 * 60 * 1000;
     initialDebounce := 5 * 60 * 1000;
     serviceRerollDistance := 0;
     services := services |}.

(* An element of docker.listContainers(). *)
Record Container := {
  Id : string;
  Labels : gmap string string
}.

(* The part of container.inspect() the program reads: Id and
   State.StartedAt, the latter as milliseconds since the epoch. *)
Record ContainerInfo := {
  info_Id : string;
  StartedAt : Z
}.

(* What the program does to the outside and to the Registry, in order. *)
Inductive action : Type :=
  | ListContainers
  | Inspect (containerId : value)
  | Stop (containerId : value)
  | Start (containerId : value)
  | SetServiceMap (rootService : string) (containerIds : list value)
  | SetServiceInterval (rootService : string) (due : Z).

#[global] Instance action_eq_dec : EqDecision action.
Proof. solve_decision. Defined.

(* The mutable part of a FriendlyFire object.  serviceMap is a JS Map:
   entries in insertion order, one per key.  serviceIntervals is a plain
   object used as a dictionary of due times. *)
Record State := {
  _workerMutex : bool;
  serviceMap : list (string * list value);
  serviceIntervals : gmap string Z;
  consulted : nat;
  history : list action
}.

(* The outside world: the clock and the docker daemon.  Every answer may
   depend on how many times the outside was consulted before. *)
Record World := {
  clock : nat -> Z;
  listContainers : nat -> result (list Container);
  inspect : nat -> value -> result ContainerInfo;
  stop : nat -> value -> result unit;
  start : nat -> value -> result unit
}.

Definition initial_state : State :=
  {| _workerMutex := false;
     serviceMap := [];
     serviceIntervals := ∅;
     consulted := 0;
     history := [] |}.

(* Map.prototype.get / Map.prototype.set on the entry list. *)
Fixpoint map_get {V} (m : list (string * V)) (k : string) : option V :=
  match m with
  | [] => None
  | (k', v) :: rest => if bool_decide (k' = k) then Some v else map_get rest k
  end.

Fixpoint map_set {V} (m : list (string * V)) (k : string) (v : V)
  : list (string * V) :=
  match m with
  | [] => [(k, v)]
  | (k', v') :: rest =>
      if bool_decide (k' = k) then (k, v) :: rest
      else (k', v') :: map_set rest k v
  end.

(* --------------------------------------------------------------------- *)
(* State and exceptions threaded through the generator bodies             *)
(* --------------------------------------------------------------------- *)

Definition M (A : Type) : Type := State -> State * result A.

Definition ret {A} (a : A) : M A := fun st => (st, Ok a).

Definition bind {A B} (m : M A) (k : A -> M B) : M B :=
  fun st =>
    match m st with
    | (st', Ok a) => k a st'
    | (st', Throw e) => (st', Throw e)
    end.

Notation "'let!' x ':=' c 'in' k" := (bind c (fun x => k))
  (at level 10, x pattern, c at level 100, k at level 200).

Definition get : M State := fun st => (st, Ok st).
Definition modify (f : State -> State) : M unit := fun st => (f st, Ok tt).
Definition lift {A} (r : result A) : M A := fun st => (st, r).

Definition with_workerMutex (b : bool) (st : State) : State :=
  {| _workerMutex := b; serviceMap := serviceMap st;
     serviceIntervals := serviceIntervals st;
     consulted := consulted st; history := history st |}.

Definition with_serviceMap (m : list (string * list value)) (st : State) : State :=
  {| _workerMutex := _workerMutex st; serviceMap := m;
     serviceIntervals := serviceIntervals st;
     consulted := consulted st; history := history st |}.

Definition with_serviceIntervals (iv : gmap string Z) (st : State) : State :=
  {| _workerMutex := _workerMutex st; serviceMap := serviceMap st;
     serviceIntervals := iv;
     consulted := consulted st; history := history st |}.

Definition with_consulted (n : nat) (st : State) : State :=
  {| _workerMutex := _workerMutex st; serviceMap := serviceMap st;
     serviceIntervals := serviceIntervals st;
     consulted := n; history := history st |}.

Definition with_history (h : list action) (st : State) : State :=
  {| _workerMutex := _workerMutex st; serviceMap := serviceMap st;
     serviceIntervals := serviceIntervals st;
     consulted := consulted st; history := h |}.

(* for (const entry of entries) { body }, with the running index i that
   the bodies of this program increment when they act on an entry. *)
Fixpoint for_of {E} (body : nat -> E -> M nat) (entries : list E) (i : nat)
  : M nat :=
  match entries with
  | [] => ret i
  | entry :: rest =>
      let! i' := body i entry in
      for_of body rest i'
  end.

Definition record (a : action) : M unit :=
  modify (fun st => with_history (history st ++ [a]) st).

(* Ask the outside world; the answer is the one for this consultation. *)
Definition consult {A} (ask : nat -> result A) : M A :=
  fun st => (with_consulted (S (consulted st)) st, ask (consulted st)).

Definition compose_label : string := "com.docker.compose.service".

(* The body of the forEach over the listed containers in _updateMemory. *)
Definition populate_step (qualifiedServices : list string)
    (serviceMap : list (string * list value)) (container : Container)
  : list (string * list value) :=
  match Labels container !! compose_label with
  | None => serviceMap
  | Some rawRootService =>
      if bool_decide (rawRootService = EmptyString) then serviceMap
      else
        let rootService := Js.toLowerCase rawRootService in
        if bool_decide (rootService ∈ qualifiedServices) then
          let services := default [] (map_get serviceMap rootService) in
          let services' :=
            if Js.includes services (str (Id container)) then services
            else Js.push services (str (Id container)) in
          map_set serviceMap rootService services'
        else serviceMap
  end.

Definition populate (qualifiedServices : list string)
    (containers : list Container) : list (string * list value) :=
  fold_left (populate_step qualifiedServices) containers [].

(* The comparator handed to sort in _sortContainersByAge: it reads the
   start time of its first argument only and compares it with now. *)
Definition age_comparefn (now : Z) (a b : ContainerInfo) : Z :=
  let started := StartedAt a in
  if Z.ltb now started then -1 else if Z.ltb started now then 1 else 0.

(* serviceIntervals[rootService] < new Date(): false when the entry is
   undefined. *)
Definition is_due (interval : option Z) (now : Z) : bool :=
  match interval with
  | None => false
  | Some due => Z.ltb due now
  end.

(* const containerId = containerIds.shift(); containerIds.push(containerId) *)
Definition rotate (containerIds : list value) : value * list value :=
  let '(containerId, shifted) := Js.shift containerIds in
  (containerId, Js.push shifted containerId).

Definition _containerIdDisplay (containerId : value) : result string :=
  match containerId with
  | undefined => Throw "TypeError: Cannot read property 'slice' of undefined"%string
  | str s => Ok (Js.slice0 9 s)
  end.

Section Program.
Variable w : World.
Variable cfg : Config.

Definition Date_now : M Z := consult (fun n => Ok (clock w n)).

Definition docker_listContainers : M (list Container) :=
  let! _ := record ListContainers in consult (listContainers w).

Definition docker_stop (containerId : value) : M unit :=
  let! _ := record (Stop containerId) in
  consult (fun n => stop w n containerId).

Definition docker_start (containerId : value) : M unit :=
  let! _ := record (Start containerId) in
  consult (fun n => start w n containerId).

(* Promise.all over the inspect calls: every call is issued, and the
   whole rejects when one of them does. *)
Fixpoint inspect_all (containerIds : list value) : M (list ContainerInfo) :=
  match containerIds with
  | [] => ret []
  | containerId :: rest =>
      fun st =>
        let '(st1, r) :=
          (let! _ := record (Inspect containerId) in
           consult (fun n => inspect w n containerId)) st in
        let '(st2, rs) := inspect_all rest st1 in
        (st2, match r, rs with
              | Ok a, Ok l => Ok (a :: l)
              | Throw e, _ => Throw e
              | Ok _, Throw e => Throw e
              end)
  end.

(* _sortContainersByAge after its await: the inspection results are in. *)
Definition sort_inspected (containerInfo : list ContainerInfo) : M (list value) :=
  let! now := Date_now in
  ret (map (fun container => str (info_Id container))
           (Js.sort (age_comparefn now) containerInfo)).

Definition _sortContainersByAge (containerIds : list value) : M (list value) :=
  let! containerInfo := inspect_all containerIds in
  sort_inspected containerInfo.

(* _updateServiceMapping after the sort: the commit into the Registry. *)
Definition commit_mapping (serviceIndex : nat) (rootService : string)
    (sortedContainerIds : list value) : M unit :=
  let! _ := modify (fun st =>
    with_serviceMap (map_set (serviceMap st) rootService sortedContainerIds) st) in
  let! _ := record (SetServiceMap rootService sortedContainerIds) in
  let! now := Date_now in
  let due := now + initialDebounce cfg
             + serviceRerollDistance cfg * Z.of_nat serviceIndex in
  let! _ := modify (fun st =>
    with_serviceIntervals (<[rootService := due]> (serviceIntervals st)) st) in
  record (SetServiceInterval rootService due).

Definition _updateServiceMapping (serviceIndex : nat) (rootService : string)
    (containerIds : list value) : M unit :=
  let! sortedContainerIds := _sortContainersByAge containerIds in
  commit_mapping serviceIndex rootService sortedContainerIds.

Definition idsDiffer (containerIds newContainerIds : list value) : bool :=
  Js.some (fun containerId => negb (Js.includes containerIds containerId))
          newContainerIds.

(* The body of the loop over this._config.serviceMap on the first run. *)
Definition first_run_body (i : nat) (service : string * list value) : M nat :=
  let '(rootService, containerIds) := service in
  let! _ := _updateServiceMapping i rootService containerIds in
  ret (S i).

(* The body of the loop over this._config.serviceMap on the later runs;
   candidate is the freshly built local serviceMap. *)
Definition drift_body (candidate : list (string * list value))
    (i : nat) (service : string * list value) : M nat :=
  let '(rootService, containerIds) := service in
  match map_get candidate rootService with
  | Some newContainerIds =>
      if idsDiffer containerIds newContainerIds then
        let! _ := _updateServiceMapping i rootService containerIds in
        ret (S i)
      else ret i
  | None => ret i
  end.

Inductive iteration_end : Type :=
  | Waited        (* the worker was busy: slept 1000 and looped *)
  | Continued     (* first population: continue, no sleep *)
  | Slept.        (* compared with the committed map, then slept 5000 *)

(* One turn of the while(true) loop of _updateMemory. *)
Definition _updateMemory_iteration : M iteration_end :=
  let! st := get in
  if _workerMutex st then ret Waited
  else
    let! containers := docker_listContainers in
    let serviceMap' := populate (services cfg) containers in
    let! st := get in
    if bool_decide (length (serviceMap st) = 0%nat) then
      let! _ := modify (with_serviceMap serviceMap') in
      let! _ := for_of first_run_body serviceMap' 0 in
      ret Continued
    else
      let! _ := for_of (drift_body serviceMap') (serviceMap st) 0 in
      ret Slept.

(* The body of the worker's loop for one entry, up to the call of
   container.stop(): None when the entry is not due, else the id to
   restart and the rotated array.  shift and push change the array that
   the Map entry holds, so the entry shows the rotated array from here
   on, before the final set. *)
Definition worker_select (i : nat) (service : string * list value)
  : M (option (value * list value)) :=
  let '(rootService, containerIds) := service in
  let! st := get in
  let! now := Date_now in
  if is_due (serviceIntervals st !! rootService) now then
    let! now' := Date_now in
    let due := now' + rolloverInterval cfg
               + serviceRerollDistance cfg * Z.of_nat i in
    let! _ := modify (fun st =>
      with_serviceIntervals (<[rootService := due]> (serviceIntervals st)) st) in
    let! _ := record (SetServiceInterval rootService due) in
    let '(containerId, rotated) := rotate containerIds in
    let! _ := modify (fun st =>
      with_serviceMap (map_set (serviceMap st) rootService rotated) st) in
    let! containerDisplayId := lift (_containerIdDisplay containerId) in
    ret (Some (containerId, rotated))
  else ret None.

(* this._config.serviceMap.set(rootService, containerIds) after the
   restart. *)
Definition worker_commit (rootService : string) (rotated : list value) : M unit :=
  let! _ := modify (fun st =>
    with_serviceMap (map_set (serviceMap st) rootService rotated) st) in
  record (SetServiceMap rootService rotated).

(* The whole body of the worker's loop for one entry; returns the
   running index. *)
Definition worker_service (i : nat) (service : string * list value) : M nat :=
  let! selected := worker_select i service in
  match selected with
  | Some (containerId, rotated) =>
      let! _ := docker_stop containerId in
      let! _ := docker_start containerId in
      let! _ := worker_commit (fst service) rotated in
      ret (S i)
  | None => ret i
  end.

(* The loop runs over the entries the Map has when it starts: set() on a
   present key keeps the place of the entry and leaves the others alone,
   so with nothing else running in between this is what the live
   iteration sees. *)
Definition _worker : M unit :=
  let! st := get in
  if _workerMutex st then ret tt
  else
    let! _ := modify (with_workerMutex true) in
    let! _ := for_of worker_service (serviceMap st) 0 in
    modify (with_workerMutex false).

End Program.


(* --------------------------------------------------------------------- *)
(* The two coroutines on one event loop                                   *)
(* --------------------------------------------------------------------- *)

(* _updateMemory and _worker are coroutines: each runs undisturbed from
   one yield to the next, and at a yield the other one may run.  A
   program point is kept for each, with the locals that are live there.
   Map iteration is by position in the entry list of the shared map. *)

Inductive discovery_pc : Type :=
  | D_loop_head
      (* about to test the flag at the head of while(true): at the start,
         or asleep in thread_sleep *)
  | D_listing
      (* awaiting this._docker.listContainers() *)
  | D_inspecting (first_run : bool) (candidate : list (string * list value))
      (pos i : nat) (rootService : string) (containerIds : list value)
      (* awaiting Promise.all in _sortContainersByAge, called from the
         loop body for the entry at pos *)
  | D_rejected (message : string).
      (* left by an exception *)

Inductive worker_pc : Type :=
  | W_idle
  | W_stopping (pos i : nat) (rootService : string)
      (containerId : value) (rotated : list value)
      (* awaiting container.stop() *)
  | W_starting (pos i : nat) (rootService : string)
      (containerId : value) (rotated : list value).
      (* awaiting container.start() *)

Record Machine := {
  shared : State;
  discovery : discovery_pc;
  worker : worker_pc
}.

Inductive event : Type :=
  | Tick               (* the 2000 ms interval fires: _worker() is called *)
  | DiscoveryResumes   (* the promise _updateMemory waits for settles *)
  | WorkerResumes.     (* the promise the worker pass waits for settles *)

Section Coroutines.
Variable w : World.
Variable cfg : Config.

(* The inspect calls go out together; their results come in together. *)
Definition issue_inspects (containerIds : list value) : M unit :=
  modify (fun st => with_history (history st ++ map Inspect containerIds) st).

Fixpoint collect_inspects (containerIds : list value) : M (list ContainerInfo) :=
  match containerIds with
  | [] => ret []
  | containerId :: rest =>
      fun st =>
        let '(st1, r) := consult (fun n => inspect w n containerId) st in
        let '(st2, rs) := collect_inspects rest st1 in
        (st2, match r, rs with
              | Ok a, Ok l => Ok (a :: l)
              | Throw e, _ => Throw e
              | Ok _, Throw e => Throw e
              end)
  end.

(* The head of while(true), up to its first yield. *)
Definition discovery_head : M discovery_pc :=
  let! st := get in
  if _workerMutex st then ret D_loop_head
  else
    let! _ := record ListContainers in
    ret D_listing.

(* The loop over this._config.serviceMap from the entry at pos on, up
   to the next yield; entries are the entries of the shared map from
   pos on. *)
Fixpoint discovery_scan (first_run : bool)
    (candidate : list (string * list value))
    (entries : list (string * list value)) (pos i : nat) : M discovery_pc :=
  match entries with
  | [] => if first_run then discovery_head else ret D_loop_head
  | (rootService, containerIds) :: rest =>
      if first_run then
        let! _ := issue_inspects containerIds in
        ret (D_inspecting true candidate pos i rootService containerIds)
      else
        match map_get candidate rootService with
        | Some newContainerIds =>
            if idsDiffer containerIds newContainerIds then
              let! _ := issue_inspects containerIds in
              ret (D_inspecting false candidate pos i rootService containerIds)
            else discovery_scan first_run candidate rest (S pos) i
        | None => discovery_scan first_run candidate rest (S pos) i
        end
  end.

Definition discovery_resume (pc : discovery_pc) : M discovery_pc :=
  match pc with
  | D_loop_head => discovery_head
  | D_listing =>
      let! containers := consult (listContainers w) in
      let serviceMap' := populate (services cfg) containers in
      let! st := get in
      if bool_decide (length (serviceMap st) = 0%nat) then
        let! _ := modify (with_serviceMap serviceMap') in
        discovery_scan true serviceMap' serviceMap' 0 0
      else
        discovery_scan false serviceMap' (serviceMap st) 0 0
  | D_inspecting first_run candidate pos i rootService containerIds =>
      let! containerInfo := collect_inspects containerIds in
      let! sortedContainerIds := sort_inspected w containerInfo in
      let! _ := commit_mapping w cfg i rootService sortedContainerIds in
      let! st := get in
      discovery_scan first_run candidate
        (drop (S pos) (serviceMap st)) (S pos) (S i)
  | D_rejected e => ret (D_rejected e)
  end.

(* The worker's loop from the entry at pos on, up to the next yield. *)
Fixpoint worker_scan (entries : list (string * list value)) (pos i : nat)
  : M worker_pc :=
  match entries with
  | [] =>
      let! _ := modify (with_workerMutex false) in
      ret W_idle
  | (rootService, containerIds) :: rest =>
      let! selected := worker_select w cfg i (rootService, containerIds) in
      match selected with
      | Some (containerId, rotated) =>
          let! _ := record (Stop containerId) in
          ret (W_stopping pos i rootService containerId rotated)
      | None => worker_scan rest (S pos) i
      end
  end.

Definition worker_resume (pc : worker_pc) : M worker_pc :=
  match pc with
  | W_idle => ret W_idle
  | W_stopping pos i rootService containerId rotated =>
      let! _ := consult (fun n => stop w n containerId) in
      let! _ := record (Start containerId) in
      ret (W_starting pos i rootService containerId rotated)
  | W_starting pos i rootService containerId rotated =>
      let! _ := consult (fun n => start w n containerId) in
      let! _ := worker_commit rootService rotated in
      let! st := get in
      worker_scan (drop (S pos) (serviceMap st)) (S pos) (S i)
  end.

(* _worker() as called by the interval, up to its first yield. *)
Definition worker_tick : M worker_pc :=
  let! st := get in
  if _workerMutex st then ret W_idle
  else
    let! _ := modify (with_workerMutex true) in
    worker_scan (serviceMap st) 0 0.

(* One event.  None: the event cannot happen in this state (nothing is
   awaited by that coroutine).  An exception ends the coroutine it
   occurs in and nothing else. *)
Definition step (ev : event) (m : Machine) : option Machine :=
  match ev with
  | Tick =>
      if _workerMutex (shared m) then Some m
      else
        match worker m with
        | W_idle =>
            match worker_tick (shared m) with
            | (st, Ok pc) =>
                Some {| shared := st; discovery := discovery m; worker := pc |}
            | (st, Throw _) =>
                Some {| shared := st; discovery := discovery m; worker := W_idle |}
            end
        | _ => None
        end
  | WorkerResumes =>
      match worker m with
      | W_idle => None
      | pc =>
          match worker_resume pc (shared m) with
          | (st, Ok pc') =>
              Some {| shared := st; discovery := discovery m; worker := pc' |}
          | (st, Throw _) =>
              Some {| shared := st; discovery := discovery m; worker := W_idle |}
          end
      end
  | DiscoveryResumes =>
      match discovery m with
      | D_rejected _ => None
      | pc =>
          match discovery_resume pc (shared m) with
          | (st, Ok pc') =>
              Some {| shared := st; discovery := pc'; worker := worker m |}
          | (st, Throw e) =>
              Some {| shared := st; discovery := D_rejected e; worker := worker m |}
          end
      end
  end.

Fixpoint run (evs : list event) (m : Machine) : option Machine :=
  match evs with
  | [] => Some m
  | ev :: rest =>
      match step ev m with
      | Some m' => run rest m'
      | None => None
      end
  end.

End Coroutines.

(* The object as the constructor leaves it. *)
Definition boot : Machine :=
  {| shared := initial_state; discovery := D_loop_head; worker := W_idle |}.

(* A worker pass is in progress. *)
Definition pass_in_progress (m : Machine) : bool :=
  match worker m with
  | W_idle => false
  | _ => true
  end.


(* --------------------------------------------------------------------- *)
(* Well-formed container lists                                            *)
(* --------------------------------------------------------------------- *)

(* A container list fit for rotation: not empty, no id twice, and every
   element an id. *)
Definition good_list (containerIds : list value) : Prop :=
  containerIds <> [] /\ NoDup containerIds /\
  Forall (fun x => x <> undefined) containerIds.

Definition good_map (m : list (string * list value)) : Prop :=
  Forall (fun entry => good_list (snd entry)) m.

Definition good_action (a : action) : Prop :=
  match a with
  | SetServiceMap _ containerIds => good_list containerIds
  | _ => True
  end.

Definition good_state (st : State) : Prop :=
  good_map (serviceMap st) /\ Forall good_action (history st).

Definition good_discovery (pc : discovery_pc) : Prop :=
  match pc with
  | D_inspecting _ _ _ _ _ containerIds => good_list containerIds
  | _ => True
  end.

Definition good_worker (pc : worker_pc) : Prop :=
  match pc with
  | W_idle => True
  | W_stopping _ _ _ containerId rotated =>
      good_list rotated /\ containerId <> undefined
  | W_starting _ _ _ containerId rotated =>
      good_list rotated /\ containerId <> undefined
  end.

Definition good_machine (m : Machine) : Prop :=
  good_state (shared m) /\ good_discovery (discovery m) /\ good_worker (worker m).

(* The daemon answers an inspection with the container that was asked
   for. *)
Definition inspect_faithful (w : World) : Prop :=
  forall n containerId info,
    inspect w n containerId = Ok info -> str (info_Id info) = containerId.


(* --------------------------------------------------------------------- *)
(* Due times assigned in a pass                                           *)
(* --------------------------------------------------------------------- *)

Definition due_of (a : action) : option Z :=
  match a with
  | SetServiceInterval _ due => Some due
  | _ => None
  end.

Definition dues (h : list action) : list Z := omap due_of h.

(* The due times written between two states of one run, in order. *)
Definition assigned (before after : State) : list Z :=
  dues (drop (length (history before)) (history after)).

(* Consecutive due times differ by exactly d. *)
Definition evenly_spaced (d : Z) (l : list Z) : Prop :=
  forall (k : nat) (x y : Z), l !! k = Some x -> l !! S k = Some y -> y - x = d.

(* A loop staggers: run from index i, the k-th due time it assigns is the
   clock reading of that assignment plus base plus (i + k) reroll
   distances; the readings are successive consultations of the clock made
   during the loop; and the index it returns has grown by the number of
   assignments. *)
Definition staggers {E} (w : World) (base distance : Z)
    (body : nat -> E -> M nat) : Prop :=
  forall entries i st st' r,
    for_of body entries i st = (st', r) ->
    exists readings : list nat,
      StronglySorted lt readings /\
      Forall (fun n => (consulted st <= n < consulted st')%nat) readings /\
      assigned st st'
      = imap (fun k n => clock w n + base + distance * Z.of_nat (i + k)) readings /\
      forall i', r = Ok i' -> i' = (i + length readings)%nat.

(* A pass staggers: its k-th due time is the clock reading of that
   assignment plus base plus k reroll distances, the readings being
   successive consultations of the clock. *)
Definition pass_staggered (w : World) (base distance : Z)
    (before after : State) : Prop :=
  exists readings : list nat,
    StronglySorted lt readings /\
    assigned before after
    = imap (fun k n => clock w n + base + distance * Z.of_nat k) readings.


(* What one turn of a loop body may do to the schedule: nothing, with the
   index kept, or one assignment for index i, with the index advanced. *)
Definition body_steps {E} (w : World) (base distance : Z)
    (body : nat -> E -> M nat) : Prop :=
  forall i e st st' r,
    body i e st = (st', r) ->
    (consulted st <= consulted st')%nat /\
    exists delta,
      history st' = history st ++ delta /\
      ((dues delta = [] /\ forall i', r = Ok i' -> i' = i) \/
       (exists n, (consulted st <= n < consulted st')%nat /\
          dues delta = [clock w n + base + distance * Z.of_nat i] /\
          forall i', r = Ok i' -> i' = S i)).

(* --------------------------------------------------------------------- *)
(* A pass run without interruption                                        *)
(* --------------------------------------------------------------------- *)

(* The machine after the worker ran up to a yield or to its end. *)
Definition settle_worker (d : discovery_pc) (x : State * result worker_pc)
  : Machine :=
  match x with
  | (st, Ok pc) => {| shared := st; discovery := d; worker := pc |}
  | (st, Throw _) => {| shared := st; discovery := d; worker := W_idle |}
  end.

(* Keys of a Map are unique. *)
Definition unique_keys (m : list (string * list value)) : Prop :=
  NoDup (map fst m).

(* --------------------------------------------------------------------- *)
(* constructor                                                            *)
(* --------------------------------------------------------------------- *)

(* The constructor up to the point where the two loops are started:
   Throw means the exception of _getServiceEnv left the constructor, so
   neither setInterval nor _updateMemory() was reached; Ok gives the
   configuration and the state both loops start from. *)
Definition constructor (FF_SERVICES : option string) : result (Config * State) :=
  match _getServiceEnv FF_SERVICES with
  | Throw e => Throw e
  | Ok services => Ok (default_config services, initial_state)
  end.

(* --------------------------------------------------------------------- *)
(* Sample runtimes and states used to exercise the program                *)
(* --------------------------------------------------------------------- *)

Module Sample.

Definition container (id service : string) : Container :=
  {| Id := id; Labels := {[ compose_label := service ]} |}.

(* Start times by container id: the one-letter ids started at the code
   of their letter times 10, anything else at 0. *)
Definition started (id : string) : Z :=
  match id with
  | String c EmptyString => 10 * Z.of_nat (nat_of_ascii c)
  | _ => 0
  end.

Definition inspect_ok (_ : nat) (containerId : value) : result ContainerInfo :=
  match containerId with
  | str s => Ok {| info_Id := s; StartedAt := started s |}
  | undefined => Throw "no such container"%string
  end.

(* A daemon that lists the given containers and never fails; the clock
   advances by [pace] per consultation from [t0]. *)
Definition calm (t0 pace : Z) (listed : list Container) : World :=
  {| clock := fun n => t0 + pace * Z.of_nat n;
     listContainers := fun _ => Ok listed;
     inspect := inspect_ok;
     stop := fun _ _ => Ok tt;
     start := fun _ _ => Ok tt |}.

(* The same daemon, except that stopping fails. *)
Definition stop_fails (t0 pace : Z) (listed : list Container) : World :=
  {| clock := fun n => t0 + pace * Z.of_nat n;
     listContainers := fun _ => Ok listed;
     inspect := inspect_ok;
     stop := fun _ _ => Throw "cannot stop container"%string;
     start := fun _ _ => Ok tt |}.


(* A daemon that never fails and whose listing changes after the first
   one: first [before], from then on [after]. *)
Definition drifting (t0 pace : Z) (before after : list Container) : World :=
  {| clock := fun n => t0 + pace * Z.of_nat n;
     listContainers := fun n => Ok (if Nat.eqb n 0 then before else after);
     inspect := inspect_ok;
     stop := fun _ _ => Ok tt;
     start := fun _ _ => Ok tt |}.

(* web runs a and b at first; later b is gone and c has come. *)
Definition web_drifts : World :=
  drifting 1000 1000000
    [container "a" "web"; container "b" "web"]
    [container "a" "web"; container "c" "web"].

Definition cfg : Config := default_config ["web"; "db"]%string.

(* A Registry with the given entries, all due at [due]. *)
Definition registry (entries : list (string * list value)) (due : Z) : State :=
  {| _workerMutex := false;
     serviceMap := entries;
     serviceIntervals := list_to_map (map (fun e => (fst e, due)) entries);
     consulted := 0;
     history := [] |}.

Definition web_db : list (string * list value) :=
  [("web"%string, [str "a"; str "b"; str "c"]);
   ("db"%string, [str "x"; str "y"])].

End Sample.

(* --------------------------------------------------------------------- *)
(* Notions used to describe the code further                              *)
(* --------------------------------------------------------------------- *)

(* Array.prototype.join(','), the inverse of split(','). *)
Fixpoint join (pieces : list string) : string :=
  match pieces with
  | [] => EmptyString
  | [piece] => piece
  | piece :: rest => String.append piece (String Js.comma (join rest))
  end.

Fixpoint commas (s : string) : nat :=
  match s with
  | EmptyString => 0
  | String c r => if Ascii.eqb c Js.comma then S (commas r) else commas r
  end.

Fixpoint has_comma (s : string) : bool :=
  match s with
  | EmptyString => false
  | String c r => Ascii.eqb c Js.comma || has_comma r
  end.


(* n rotations of a container list. *)
Definition rotations (n : nat) (containerIds : list value) : list value :=
  Nat.iter n (fun l => snd (rotate l)) containerIds.

(* What was added to the history between two states of one run. *)
Definition since (before after : State) : list action :=
  drop (length (history before)) (history after).




(* The container carries a non-empty compose service label that is
   rootService up to case. *)
Definition labelled (rootService : string) (container : Container) : bool :=
  match Labels container !! compose_label with
  | Some rawRootService =>
      negb (bool_decide (rawRootService = EmptyString))
      && bool_decide (Js.toLowerCase rawRootService = rootService)
  | None => false
  end.

(* The ids of the listed containers labelled for rootService, in listing
   order. *)
Definition listed_for (rootService : string) (containers : list Container)
  : list value :=
  map (fun c => str (Id c)) (List.filter (labelled rootService) containers).

(* !services.includes(id) && services.push(id) *)
Definition push_new (services : list value) (containerId : value) : list value :=
  if Js.includes services containerId then services
  else Js.push services containerId.

(* Two maps with the same services in the same order and, service by
   service, the same container ids up to order. *)
Definition same_members (m m' : list (string * list value)) : Prop :=
  map fst m' = map fst m /\
  forall rootService containerIds,
    map_get m rootService = Some containerIds ->
    exists containerIds',
      map_get m' rootService = Some containerIds' /\
      Permutation containerIds containerIds'.

(* A body of a discovery loop: on an entry it either leaves the Registry
   alone or commits a reordering of the entry's ids with a due time. *)
Definition remaps (w : World)
    (body : nat -> string * list value -> M nat) : Prop :=
  forall i rootService containerIds st st' r,
    body i (rootService, containerIds) st = (st', r) ->
    _workerMutex st' = _workerMutex st /\
    ((serviceMap st' = serviceMap st /\
      serviceIntervals st' = serviceIntervals st /\
      (r = Ok i \/ exists e, r = Throw e)) \/
     (exists sorted due,
        Permutation containerIds sorted /\
        serviceMap st' = map_set (serviceMap st) rootService sorted /\
        serviceIntervals st' = <[rootService := due]> (serviceIntervals st) /\
        r = Ok (S i))).

(* Due times at least d apart for each step between them. *)
Definition spread (d : Z) (l : list Z) : Prop :=
  forall (j k : nat) (x y : Z),
    (j < k)%nat -> l !! j = Some x -> l !! k = Some y ->
    x + d * Z.of_nat (k - j) <= y.

(* The clock never goes back. *)
Definition monotone_clock (w : World) : Prop :=
  forall n n' : nat, (n <= n')%nat -> clock w n <= clock w n'.

(* ===================================================================== *)
(* Properties                                                             *)
(* ===================================================================== *)

(* --------------------------------------------------------------------- *)
(* Strings                                                                *)
(* --------------------------------------------------------------------- *)

Lemma lower_ascii_comma (c : ascii) :
  Ascii.eqb (Js.lower_ascii c) Js.comma = Ascii.eqb c Js.comma.
Proof. destruct c as [[] [] [] [] [] [] [] []]; reflexivity. Qed.

Lemma split_nonempty (s : string) : Js.split s <> [].
Proof.
  induction s as [|c r IH]; cbn; [discriminate|].
  destruct (Ascii.eqb c Js.comma); [discriminate|].
  destruct (Js.split r); discriminate.
Qed.

Lemma split_toLowerCase (s : string) :
  Js.split (Js.toLowerCase s) = map Js.toLowerCase (Js.split s).
Proof.
  induction s as [|c r IH]; cbn; [reflexivity|].
  rewrite lower_ascii_comma.
  destruct (Ascii.eqb c Js.comma); cbn; [now rewrite IH|].
  rewrite IH. pose proof (split_nonempty r) as Hne.
  destruct (Js.split r) as [|h t]; [contradiction|reflexivity].
Qed.

(** C9: without FF_SERVICES (unset or empty) the constructor throws before
    the loops are started; with a non-empty value the configured services
    are the comma-separated components of the value, each lower-cased. *)
Theorem services_required (s : string) :
  constructor None = Throw "Invalid services given"%string /\
  constructor (Some EmptyString) = Throw "Invalid services given"%string /\
  (s <> EmptyString ->
   constructor (Some s)
   = Ok (default_config (map Js.toLowerCase (Js.split s)), initial_state)).
Proof.
  repeat split.
  intros Hs. unfold constructor, _getServiceEnv.
  rewrite bool_decide_eq_false_2 by exact Hs.
  now rewrite split_toLowerCase.
Qed.

Lemma services_required_witness :
  constructor (Some "Web,DB,cache"%string)
  = Ok (default_config ["web"; "db"; "cache"]%string, initial_state).
Proof.
  apply (proj2 (proj2 (services_required "Web,DB,cache"%string))).
  discriminate.
Defined.

(* --------------------------------------------------------------------- *)
(* Map entries                                                            *)
(* --------------------------------------------------------------------- *)

Lemma map_get_set_eq {V} (m : list (string * V)) k v :
  map_get (map_set m k v) k = Some v.
Proof.
  induction m as [|[k' v'] m IH]; cbn.
  - now rewrite bool_decide_eq_true_2.
  - destruct (bool_decide (k' = k)) eqn:E; cbn.
    + now rewrite bool_decide_eq_true_2.
    + now rewrite E.
Qed.

Lemma map_get_set_ne {V} (m : list (string * V)) k k' v :
  k <> k' -> map_get (map_set m k v) k' = map_get m k'.
Proof.
  intros Hne. induction m as [|[k0 v0] m IH]; cbn.
  - now rewrite bool_decide_eq_false_2.
  - destruct (bool_decide (k0 = k)) eqn:E; cbn.
    + apply bool_decide_eq_true_1 in E. subst k0.
      now rewrite !bool_decide_eq_false_2.
    + now rewrite IH.
Qed.

Lemma map_set_keys {V} (m : list (string * V)) k v :
  map_get m k <> None -> map fst (map_set m k v) = map fst m.
Proof.
  induction m as [|[k0 v0] m IH]; cbn; [congruence|].
  destruct (bool_decide (k0 = k)) eqn:E; cbn.
  - apply bool_decide_eq_true_1 in E. now subst.
  - intros H. now rewrite IH.
Qed.

Lemma map_set_idem {V} (m : list (string * V)) k v :
  map_set (map_set m k v) k v = map_set m k v.
Proof.
  induction m as [|[k0 v0] m IH]; cbn.
  - now rewrite bool_decide_eq_true_2.
  - destruct (bool_decide (k0 = k)) eqn:E; cbn.
    + now rewrite bool_decide_eq_true_2.
    + now rewrite E, IH.
Qed.

(* --------------------------------------------------------------------- *)
(* Rotation                                                               *)
(* --------------------------------------------------------------------- *)

Lemma rotate_cons (head : value) (tail : list value) :
  rotate (head :: tail) = (head, tail ++ [head]).
Proof. reflexivity. Qed.

Lemma rotate_nil : rotate [] = (undefined, [undefined]).
Proof. reflexivity. Qed.

Lemma rotate_length_nonempty (l : list value) :
  l <> [] -> length (snd (rotate l)) = length l.
Proof.
  destruct l as [|h t]; [congruence|]. intros _.
  rewrite rotate_cons. cbn [snd]. rewrite length_app. cbn. lia.
Qed.

Lemma rotate_nonempty (l : list value) : snd (rotate l) <> [].
Proof. destruct l as [|h t]; cbn; [discriminate|]. now destruct t. Qed.

Lemma rotate_perm (l : list value) :
  l <> [] -> Permutation l (snd (rotate l)).
Proof.
  destruct l as [|h t]; [congruence|]. intros _.
  rewrite rotate_cons. apply Permutation_cons_append.
Qed.

Lemma rotations_perm (n : nat) (l : list value) :
  l <> [] ->
  Permutation l (Nat.iter n (fun x => snd (rotate x)) l)
  /\ Nat.iter n (fun x => snd (rotate x)) l <> [].
Proof.
  intros Hne. induction n as [|n [IHp IHn]]; cbn; [split; [reflexivity|easy]|].
  split; [|apply rotate_nonempty].
  etransitivity; [exact IHp|]. now apply rotate_perm.
Qed.

(* --------------------------------------------------------------------- *)
(* The worker on one entry                                                *)
(* --------------------------------------------------------------------- *)

Ltac run_monad :=
  unfold worker_select, worker_commit, commit_mapping, sort_inspected,
    docker_stop, docker_start, docker_listContainers, Date_now,
    consult, record, modify, get, lift, ret, bind in *;
  cbn [fst snd _workerMutex serviceMap serviceIntervals consulted history
       with_workerMutex with_serviceMap with_serviceIntervals with_consulted
       with_history] in *.

(* An entry that is not due costs one look at the clock and nothing else. *)
Lemma worker_service_not_due w cfg i rootService containerIds st :
  is_due (serviceIntervals st !! rootService) (clock w (consulted st)) = false ->
  worker_service w cfg i (rootService, containerIds) st
  = (with_consulted (S (consulted st)) st, Ok i).
Proof.
  intros Hdue. unfold worker_service. run_monad. now rewrite Hdue.
Qed.

(* A due entry whose restart goes through. *)
Lemma worker_service_restarted w cfg i i' rootService containerIds st st' :
  is_due (serviceIntervals st !! rootService) (clock w (consulted st)) = true ->
  worker_service w cfg i (rootService, containerIds) st = (st', Ok i') ->
  let due := clock w (S (consulted st)) + rolloverInterval cfg
             + serviceRerollDistance cfg * Z.of_nat i in
  i' = S i /\
  _workerMutex st' = _workerMutex st /\
  serviceMap st'
  = map_set (serviceMap st) rootService (snd (rotate containerIds)) /\
  serviceIntervals st' = <[rootService := due]> (serviceIntervals st) /\
  history st'
  = history st ++ [SetServiceInterval rootService due;
                   Stop (fst (rotate containerIds));
                   Start (fst (rotate containerIds));
                   SetServiceMap rootService (snd (rotate containerIds))].
Proof.
  intros Hdue. unfold worker_service. run_monad. rewrite Hdue.
  destruct (rotate containerIds) as [containerId rotated].
  run_monad.
  destruct (_containerIdDisplay containerId); [|discriminate].
  destruct (stop w _ containerId); [|discriminate].
  destruct (start w _ containerId); [|discriminate].
  intros [= <- <-]. cbn.
  rewrite map_set_idem, <- !app_assoc. cbn. auto.
Qed.

(** C6: when the worker restarts the head container of a service whose
    committed list is not empty, the list it commits back has that head at
    its tail, has the same length, and holds exactly the same ids (a
    permutation: nothing dropped, nothing duplicated); length and content
    stay so under any number of rotations. *)
Theorem rotation_invariant w cfg i i' rootService containerIds st st' :
  containerIds <> [] ->
  is_due (serviceIntervals st !! rootService) (clock w (consulted st)) = true ->
  worker_service w cfg i (rootService, containerIds) st = (st', Ok i') ->
  exists head tail,
    containerIds = head :: tail /\
    In (Stop head) (history st') /\ In (Start head) (history st') /\
    map_get (serviceMap st') rootService = Some (tail ++ [head]) /\
    last (tail ++ [head]) = Some head /\
    length (tail ++ [head]) = length containerIds /\
    Permutation containerIds (tail ++ [head]) /\
    (NoDup containerIds -> NoDup (tail ++ [head])) /\
    forall n : nat,
      length (Nat.iter n (fun l => snd (rotate l)) containerIds)
      = length containerIds /\
      Permutation containerIds (Nat.iter n (fun l => snd (rotate l)) containerIds).
Proof.
  intros Hne Hdue Hrun.
  destruct containerIds as [|head tail]; [congruence|].
  destruct (worker_service_restarted _ _ _ _ _ _ _ _ Hdue Hrun)
    as (_ & _ & Hmap & _ & Hhist).
  rewrite rotate_cons in Hmap, Hhist. cbn [fst snd] in Hmap, Hhist.
  exists head, tail. split; [reflexivity|].
  split; [rewrite Hhist; apply in_or_app; right; cbn; auto|].
  split; [rewrite Hhist; apply in_or_app; right; cbn; auto|].
  split; [rewrite Hmap; apply map_get_set_eq|].
  split; [apply last_snoc|].
  split; [rewrite length_app; cbn; lia|].
  split; [apply Permutation_cons_append|].
  split.
  - intros Hnd. now rewrite <- (Permutation_cons_append tail head).
  - intros n. destruct (rotations_perm n (head :: tail) Hne) as [Hp _].
    split; [|exact Hp]. symmetry. now apply Permutation_length.
Qed.

Lemma rotation_invariant_witness :
  exists head tail,
    [str "a"; str "b"; str "c"] = head :: tail /\
    In (Stop head)
       (history (fst (worker_service (Sample.calm 1000 1 []) Sample.cfg 0
                        ("web"%string, [str "a"; str "b"; str "c"])
                        (Sample.registry Sample.web_db 0)))) /\
    In (Start head)
       (history (fst (worker_service (Sample.calm 1000 1 []) Sample.cfg 0
                        ("web"%string, [str "a"; str "b"; str "c"])
                        (Sample.registry Sample.web_db 0)))) /\
    map_get
      (serviceMap (fst (worker_service (Sample.calm 1000 1 []) Sample.cfg 0
                          ("web"%string, [str "a"; str "b"; str "c"])
                          (Sample.registry Sample.web_db 0)))) "web"
    = Some (tail ++ [head]) /\
    last (tail ++ [head]) = Some head /\
    length (tail ++ [head]) = length [str "a"; str "b"; str "c"] /\
    Permutation [str "a"; str "b"; str "c"] (tail ++ [head]) /\
    (NoDup [str "a"; str "b"; str "c"] -> NoDup (tail ++ [head])) /\
    forall n : nat,
      length (Nat.iter n (fun l => snd (rotate l)) [str "a"; str "b"; str "c"])
      = length [str "a"; str "b"; str "c"] /\
      Permutation [str "a"; str "b"; str "c"]
        (Nat.iter n (fun l => snd (rotate l)) [str "a"; str "b"; str "c"]).
Proof.
  apply (rotation_invariant (Sample.calm 1000 1 []) Sample.cfg 0 1 "web"
           [str "a"; str "b"; str "c"] (Sample.registry Sample.web_db 0)).
  - discriminate.
  - vm_compute. reflexivity.
  - vm_compute. reflexivity.
Defined.

(* --------------------------------------------------------------------- *)
(* Container ordering                                                     *)
(* --------------------------------------------------------------------- *)

Lemma insert_left_all_greater {A} (comparefn : A -> A -> Z) prefix element :
  (forall tmp, In tmp prefix -> 0 < comparefn tmp element) ->
  Js.insert_left comparefn prefix element = prefix ++ [element].
Proof.
  induction prefix as [|tmp rest IH]; intros Hall; cbn; [reflexivity|].
  assert (Z.ltb 0 (comparefn tmp element) = true) as ->
    by (apply Z.ltb_lt, Hall; cbn; auto).
  rewrite IH; [reflexivity|]. intros t Ht. apply Hall. cbn. auto.
Qed.

Lemma fold_insert_left_all_greater {A} (comparefn : A -> A -> Z) a acc :
  (forall x y, In x (acc ++ a) -> 0 < comparefn x y) ->
  fold_left (Js.insert_left comparefn) a acc = acc ++ a.
Proof.
  revert acc. induction a as [|e a IH]; intros acc Hall; cbn.
  - now rewrite app_nil_r.
  - rewrite insert_left_all_greater.
    + rewrite IH; [now rewrite <- app_assoc|].
      intros x y Hx. apply Hall. now rewrite <- app_assoc in Hx.
    + intros tmp Ht. apply Hall. apply in_or_app. now left.
Qed.

(* With every container started before now the comparator answers 1
   whatever it is asked, and the sort hands the array back reversed. *)
Lemma sort_started_before_now (now : Z) (containerInfo : list ContainerInfo) :
  (forall c, In c containerInfo -> StartedAt c < now) ->
  Js.sort (age_comparefn now) containerInfo = rev containerInfo.
Proof.
  intros Hpast. unfold Js.sort.
  rewrite fold_insert_left_all_greater; [reflexivity|].
  intros x y Hx. cbn in Hx. apply Hpast in Hx. unfold age_comparefn.
  destruct (Z.ltb_spec now (StartedAt x)); [lia|].
  destruct (Z.ltb_spec (StartedAt x) now); lia.
Qed.

(* So the order the function returns does not depend on the start
   times at all: with every container started before the call, the ids of
   the inspection results come back in reverse. *)
Lemma sort_inspected_past w (containerInfo : list ContainerInfo) st :
  (forall c, In c containerInfo -> StartedAt c < clock w (consulted st)) ->
  snd (sort_inspected w containerInfo st)
  = Ok (rev (map (fun container => str (info_Id container)) containerInfo)).
Proof.
  intros Hpast. unfold sort_inspected, Date_now, bind, consult, ret. cbn.
  rewrite sort_started_before_now by exact Hpast. now rewrite map_rev.
Qed.

(** C3: _sortContainersByAge does not order by start time.  Container a
    started strictly before container c, and both started before the call,
    yet for the listing b, a, c the function returns c, a, b: c precedes
    a. *)
Theorem sortContainersByAge_not_chronological :
  Sample.started "a" < Sample.started "c" /\
  Sample.started "c" < clock (Sample.calm 1000 1 []) 3 /\
  snd (_sortContainersByAge (Sample.calm 1000 1 [])
         [str "b"; str "a"; str "c"] initial_state)
  = Ok [str "c"; str "a"; str "b"].
Proof. vm_compute. repeat split; reflexivity. Qed.

(* --------------------------------------------------------------------- *)
(* Inspection and remapping                                               *)
(* --------------------------------------------------------------------- *)

(* Inspecting touches neither the flag nor the Registry. *)
Lemma inspect_all_frame w containerIds st :
  let st' := fst (inspect_all w containerIds st) in
  _workerMutex st' = _workerMutex st /\
  serviceMap st' = serviceMap st /\
  serviceIntervals st' = serviceIntervals st /\
  consulted st' = (consulted st + length containerIds)%nat /\
  history st' = history st ++ map Inspect containerIds.
Proof.
  revert st. induction containerIds as [|containerId rest IH]; intros st.
  - cbn. rewrite app_nil_r. repeat split; lia.
  - cbn [inspect_all]. run_monad.
    match goal with |- context [inspect_all w rest ?s] =>
      specialize (IH s); destruct (inspect_all w rest s) as [st2 rs] end.
    cbn in IH |- *. destruct IH as (-> & -> & -> & -> & ->).
    rewrite <- app_assoc. repeat split; cbn; lia.
Qed.

Lemma sortContainersByAge_frame w containerIds st st' r :
  _sortContainersByAge w containerIds st = (st', r) ->
  _workerMutex st' = _workerMutex st /\
  serviceMap st' = serviceMap st /\
  serviceIntervals st' = serviceIntervals st /\
  (consulted st <= consulted st')%nat /\
  history st' = history st ++ map Inspect containerIds.
Proof.
  unfold _sortContainersByAge. unfold bind at 1.
  pose proof (inspect_all_frame w containerIds st) as H.
  destruct (inspect_all w containerIds st) as [st1 [infos|e]];
    cbn in H; destruct H as (Hm & Hs & Hi & Hc & Hh).
  - run_monad. intros [= <- <-]. cbn. repeat split; auto; lia.
  - intros [= <- <-]. repeat split; auto; lia.
Qed.

(* What a remap that goes through leaves behind. *)
Lemma updateServiceMapping_ok w cfg i rootService containerIds st st' :
  _updateServiceMapping w cfg i rootService containerIds st = (st', Ok tt) ->
  exists st1 sortedContainerIds,
    _sortContainersByAge w containerIds st = (st1, Ok sortedContainerIds) /\
    let due := clock w (consulted st1) + initialDebounce cfg
               + serviceRerollDistance cfg * Z.of_nat i in
    _workerMutex st' = _workerMutex st /\
    serviceMap st' = map_set (serviceMap st) rootService sortedContainerIds /\
    serviceIntervals st' = <[rootService := due]> (serviceIntervals st) /\
    consulted st' = S (consulted st1) /\
    (consulted st <= consulted st1)%nat /\
    history st'
    = history st ++ map Inspect containerIds
      ++ [SetServiceMap rootService sortedContainerIds;
          SetServiceInterval rootService due].
Proof.
  unfold _updateServiceMapping. unfold bind at 1.
  destruct (_sortContainersByAge w containerIds st) as [st1 [sorted|e]] eqn:Hs;
    [|discriminate].
  destruct (sortContainersByAge_frame _ _ _ _ _ Hs) as (Hm & Hmap & Hi & Hc & Hh).
  run_monad. intros [= <-]. exists st1, sorted. cbn.
  rewrite Hm, Hmap, Hi, Hh, <- !app_assoc. cbn. repeat split; auto.
Qed.

(* A remap that fails has written nothing into the Registry. *)
Lemma updateServiceMapping_throw w cfg i rootService containerIds st st' e :
  _updateServiceMapping w cfg i rootService containerIds st = (st', Throw e) ->
  _workerMutex st' = _workerMutex st /\
  serviceMap st' = serviceMap st /\
  serviceIntervals st' = serviceIntervals st /\
  (consulted st <= consulted st')%nat /\
  history st' = history st ++ map Inspect containerIds.
Proof.
  unfold _updateServiceMapping. unfold bind at 1.
  destruct (_sortContainersByAge w containerIds st) as [st1 [sorted|e']] eqn:Hs.
  - run_monad. discriminate.
  - intros [= <- <-]. eapply sortContainersByAge_frame; eauto.
Qed.

(* --------------------------------------------------------------------- *)
(* Debounce                                                               *)
(* --------------------------------------------------------------------- *)

(** C7: right after a service is (re)mapped at clock reading t0 its due
    time is at least t0 + initialDebounce, and as long as that due time
    stands, any worker visit whose clock reading is below
    t0 + initialDebounce finds the service not due: it is skipped, with no
    stop, no start and no change to the Registry. *)
Theorem debounce w cfg i rootService containerIds st st' :
  0 <= serviceRerollDistance cfg ->
  _updateServiceMapping w cfg i rootService containerIds st = (st', Ok tt) ->
  let t0 := clock w (pred (consulted st')) in
  exists due,
    serviceIntervals st' !! rootService = Some due /\
    t0 + initialDebounce cfg <= due /\
    forall (j : nat) (ids : list value) (st2 : State),
      serviceIntervals st2 !! rootService = Some due ->
      clock w (consulted st2) < t0 + initialDebounce cfg ->
      worker_service w cfg j (rootService, ids) st2
      = (with_consulted (S (consulted st2)) st2, Ok j).
Proof.
  intros Hsrd Hrun.
  destruct (updateServiceMapping_ok _ _ _ _ _ _ _ Hrun)
    as (st1 & sorted & _ & _ & _ & Hiv & Hc & _ & _).
  rewrite Hc. cbn [pred].
  eexists. split; [rewrite Hiv; apply lookup_insert_eq|].
  split; [nia|].
  intros j ids st2 Hdue Hnow. apply worker_service_not_due.
  rewrite Hdue. cbn. apply Z.ltb_ge. nia.
Qed.

Lemma debounce_witness :
  exists due,
    serviceIntervals
      (fst (_updateServiceMapping (Sample.calm 1000 1 []) Sample.cfg 1 "web"
              [str "a"; str "b"] initial_state)) !! "web"%string = Some due /\
    clock (Sample.calm 1000 1 []) 3 + initialDebounce Sample.cfg <= due /\
    forall (j : nat) (ids : list value) (st2 : State),
      serviceIntervals st2 !! "web"%string = Some due ->
      clock (Sample.calm 1000 1 []) (consulted st2)
      < clock (Sample.calm 1000 1 []) 3 + initialDebounce Sample.cfg ->
      worker_service (Sample.calm 1000 1 []) Sample.cfg j ("web"%string, ids) st2
      = (with_consulted (S (consulted st2)) st2, Ok j).
Proof.
  apply (debounce (Sample.calm 1000 1 []) Sample.cfg 1 "web"
           [str "a"; str "b"] initial_state
           (fst (_updateServiceMapping (Sample.calm 1000 1 []) Sample.cfg 1 "web"
                   [str "a"; str "b"] initial_state))).
  - vm_compute. discriminate.
  - vm_compute. reflexivity.
Defined.

(* --------------------------------------------------------------------- *)
(* The worker when nothing is due                                         *)
(* --------------------------------------------------------------------- *)

Lemma worker_loop_idle w cfg entries i st :
  (forall rootService containerIds n,
     In (rootService, containerIds) entries ->
     (consulted st <= n < consulted st + length entries)%nat ->
     is_due (serviceIntervals st !! rootService) (clock w n) = false) ->
  for_of (worker_service w cfg) entries i st
  = (with_consulted (consulted st + length entries) st, Ok i).
Proof.
  revert st. induction entries as [|[rootService containerIds] rest IH];
    intros st Hidle.
  - cbn. unfold ret. destruct st; cbn. now rewrite Nat.add_0_r.
  - cbn [for_of]. unfold bind.
    rewrite worker_service_not_due
      by (apply (Hidle rootService containerIds); cbn; [auto|lia]).
    rewrite IH.
    + unfold with_consulted; cbn. do 3 f_equal. lia.
    + intros k ids n Hin Hn. cbn in Hn |- *.
      apply (Hidle k ids); cbn; [auto|lia].
Qed.

(** C8: when every service's due time lies strictly in the future at every
    clock reading of the tick, one worker tick issues no stop and no start
    (it adds nothing at all to the history of calls and writes) and leaves
    every container list and every due time as it was. *)
Theorem worker_idle_noop w cfg st :
  (forall rootService due n,
     serviceIntervals st !! rootService = Some due ->
     (consulted st <= n < consulted st + length (serviceMap st))%nat ->
     clock w n < due) ->
  exists st',
    _worker w cfg st = (st', Ok tt) /\
    history st' = history st /\
    (forall containerId, ~ In (Stop containerId) (skipn (length (history st)) (history st'))) /\
    (forall containerId, ~ In (Start containerId) (skipn (length (history st)) (history st'))) /\
    serviceMap st' = serviceMap st /\
    serviceIntervals st' = serviceIntervals st /\
    _workerMutex st' = _workerMutex st.
Proof.
  intros Hfuture. unfold _worker. run_monad.
  destruct (_workerMutex st) eqn:Hm.
  - exists st. rewrite skipn_all. cbn. repeat split; auto.
  - rewrite (worker_loop_idle w cfg (serviceMap st) 0 (with_workerMutex true st)).
    + eexists. split; [reflexivity|]. cbn. rewrite skipn_all. cbn.
      repeat split; auto.
    + intros k ids n _ Hn. cbn in Hn |- *.
      destruct (serviceIntervals st !! k) as [due|] eqn:Hd; [|reflexivity].
      cbn. apply Z.ltb_ge. specialize (Hfuture k due n Hd Hn). lia.
Qed.

Lemma worker_idle_noop_witness :
  exists st',
    _worker (Sample.calm 1000 1 []) Sample.cfg (Sample.registry Sample.web_db 5000)
    = (st', Ok tt) /\
    history st' = history (Sample.registry Sample.web_db 5000) /\
    (forall containerId,
       ~ In (Stop containerId)
           (skipn (length (history (Sample.registry Sample.web_db 5000)))
                  (history st'))) /\
    (forall containerId,
       ~ In (Start containerId)
           (skipn (length (history (Sample.registry Sample.web_db 5000)))
                  (history st'))) /\
    serviceMap st' = serviceMap (Sample.registry Sample.web_db 5000) /\
    serviceIntervals st' = serviceIntervals (Sample.registry Sample.web_db 5000) /\
    _workerMutex st' = _workerMutex (Sample.registry Sample.web_db 5000).
Proof.
  apply (worker_idle_noop (Sample.calm 1000 1 []) Sample.cfg
           (Sample.registry Sample.web_db 5000)).
  intros rootService due n Hdue Hn.
  assert (due = 5000) as ->.
  { destruct (decide (rootService = "web"%string)) as [->|Hw];
      [vm_compute in Hdue; congruence|].
    destruct (decide (rootService = "db"%string)) as [->|Hd];
      [vm_compute in Hdue; congruence|].
    unfold Sample.registry, Sample.web_db in Hdue. cbn in Hdue.
    rewrite !lookup_insert_ne in Hdue by congruence.
    rewrite lookup_empty in Hdue. discriminate. }
  cbn in Hn |- *. lia.
Defined.

(* --------------------------------------------------------------------- *)
(* The busy flag across a worker pass                                     *)
(* --------------------------------------------------------------------- *)

Lemma worker_service_mutex w cfg i service st :
  _workerMutex (fst (worker_service w cfg i service st)) = _workerMutex st.
Proof.
  destruct service as [rootService containerIds].
  unfold worker_service. run_monad.
  destruct (is_due _ _); [|reflexivity].
  destruct (rotate containerIds) as [containerId rotated]. run_monad.
  destruct (_containerIdDisplay containerId); [|reflexivity].
  destruct (stop w _ containerId); [|reflexivity].
  destruct (start w _ containerId); reflexivity.
Qed.

Lemma worker_loop_mutex w cfg entries i st :
  _workerMutex (fst (for_of (worker_service w cfg) entries i st))
  = _workerMutex st.
Proof.
  revert i st. induction entries as [|service rest IH]; intros i st;
    [reflexivity|].
  cbn [for_of]. unfold bind.
  pose proof (worker_service_mutex w cfg i service st) as Hs.
  destruct (worker_service w cfg i service st) as [st1 [i'|e]]; cbn in Hs.
  - now rewrite IH.
  - exact Hs.
Qed.

(* A pass that runs to its end releases the flag; a pass that is left by
   an exception does not. *)
Lemma worker_flag_after_pass w cfg st :
  _workerMutex st = false ->
  match _worker w cfg st with
  | (st', Ok _) => _workerMutex st' = false
  | (st', Throw _) => _workerMutex st' = true
  end.
Proof.
  intros Hm. unfold _worker. run_monad. rewrite Hm.
  pose proof (worker_loop_mutex w cfg (serviceMap st) 0 (with_workerMutex true st))
    as Hl.
  destruct (for_of _ _ _ _) as [st1 [i|e]]; cbn in Hl |- *; auto.
Qed.

(* With the flag set a tick returns at once, whatever the daemon does. *)
Lemma worker_locked_out w cfg st :
  _workerMutex st = true -> _worker w cfg st = (st, Ok tt).
Proof. intros Hm. unfold _worker. run_monad. now rewrite Hm. Qed.

(** C2: the flag is not released on the failure path.  With the services
    web and db both due and a daemon whose stop call fails, the pass ends
    with that exception and leaves the busy flag set; every later tick,
    with any daemon, then returns without doing anything. *)
Theorem worker_failure_keeps_flag :
  let run := _worker (Sample.stop_fails 1000 1 []) Sample.cfg
               (Sample.registry Sample.web_db 0) in
  _workerMutex (Sample.registry Sample.web_db 0) = false /\
  snd run = Throw "cannot stop container"%string /\
  _workerMutex (fst run) = true /\
  forall w, _worker w Sample.cfg (fst run) = (fst run, Ok tt).
Proof.
  cbv zeta. split; [reflexivity|]. split; [vm_compute; reflexivity|].
  assert (_workerMutex
            (fst (_worker (Sample.stop_fails 1000 1 []) Sample.cfg
                    (Sample.registry Sample.web_db 0))) = true) as Hm
    by (vm_compute; reflexivity).
  split; [exact Hm|]. intros w. now apply worker_locked_out.
Qed.

(* --------------------------------------------------------------------- *)
(* Drift                                                                  *)
(* --------------------------------------------------------------------- *)

(** C1: on drift the remap does not commit the discovered ids.  With a, b
    committed for web and a, c discovered, the ids differ and the service
    is remapped, but the list committed is made of the old ids a and b,
    and c is not in the Registry afterwards; only the due time is reset. *)
Theorem drift_commits_old_ids :
  let listed := [Sample.container "a" "web"; Sample.container "c" "web"] in
  let st := Sample.registry [("web"%string, [str "a"; str "b"])] 0 in
  let run := _updateMemory_iteration (Sample.calm 1000 1 listed) Sample.cfg st in
  populate (services Sample.cfg) listed = [("web"%string, [str "a"; str "c"])] /\
  idsDiffer [str "a"; str "b"] [str "a"; str "c"] = true /\
  snd run = Ok Slept /\
  map_get (serviceMap (fst run)) "web" = Some [str "b"; str "a"] /\
  serviceIntervals (fst run) !! "web"%string = Some (1004 + initialDebounce Sample.cfg) /\
  history (fst run)
  = [ListContainers; Inspect (str "a"); Inspect (str "b");
     SetServiceMap "web" [str "b"; str "a"];
     SetServiceInterval "web" (1004 + initialDebounce Sample.cfg)].
Proof. vm_compute. repeat split; reflexivity. Qed.

(* --------------------------------------------------------------------- *)
(* Discovery against a pass in progress                                   *)
(* --------------------------------------------------------------------- *)

(** C4: the flag is tested only at the head of the discovery loop, so a
    pass that starts while discovery awaits the listing does not hold it
    back.  Discovery lists (flag clear), the worker tick sets the flag and
    awaits stop for b, the listing arrives with drift, and discovery
    remaps web: the container list and the due time of web in the Registry
    are overwritten while the flag is set and the pass still awaits its
    stop call. *)
Theorem discovery_remaps_during_pass :
  exists before after : Machine,
    run Sample.web_drifts Sample.cfg
      [DiscoveryResumes; DiscoveryResumes; DiscoveryResumes; Tick;
       DiscoveryResumes] boot = Some before /\
    step Sample.web_drifts Sample.cfg DiscoveryResumes before = Some after /\
    _workerMutex (shared before) = true /\
    _workerMutex (shared after) = true /\
    worker before = W_stopping 0 0 "web" (str "b") [str "a"; str "b"] /\
    worker after = worker before /\
    map_get (serviceMap (shared before)) "web" = Some [str "a"; str "b"] /\
    map_get (serviceMap (shared after)) "web" = Some [str "b"; str "a"] /\
    serviceIntervals (shared before) !! "web"%string = Some 7801000 /\
    serviceIntervals (shared after) !! "web"%string = Some 11301000 /\
    skipn (length (history (shared before))) (history (shared after))
    = [SetServiceMap "web" [str "b"; str "a"];
       SetServiceInterval "web" 11301000].
Proof.
  eexists. eexists.
  split; [vm_compute; reflexivity|].
  split; [vm_compute; reflexivity|].
  vm_compute. repeat split; reflexivity.
Qed.

(* --------------------------------------------------------------------- *)
(* Well-formed lists are kept                                             *)
(* --------------------------------------------------------------------- *)

Lemma good_list_perm (l l' : list value) :
  Permutation l l' -> good_list l -> good_list l'.
Proof.
  intros Hp (Hne & Hnd & Hall). repeat split.
  - intros ->. symmetry in Hp. apply Permutation_nil in Hp. congruence.
  - now rewrite <- Hp.
  - now rewrite <- Hp.
Qed.

Lemma good_list_rotate (l : list value) :
  good_list l -> good_list (snd (rotate l)).
Proof.
  intros Hg. eapply good_list_perm; [|exact Hg].
  apply rotate_perm. apply Hg.
Qed.

Lemma good_list_head (l : list value) :
  good_list l ->
  exists s tail, l = str s :: tail /\ rotate l = (str s, tail ++ [str s]).
Proof.
  intros (Hne & _ & Hall). destruct l as [|[|s] tail]; [congruence| |].
  - apply Forall_cons in Hall. destruct Hall as [Hu _]. congruence.
  - exists s, tail. split; reflexivity.
Qed.

Lemma map_set_good m k v :
  good_map m -> good_list v -> good_map (map_set m k v).
Proof.
  intros Hm Hv. induction m as [|[k' v'] m IH]; cbn.
  - constructor; [exact Hv|constructor].
  - apply Forall_cons in Hm. destruct Hm as [Hv' Hm].
    destruct (bool_decide (k' = k)); constructor; cbn; auto.
    apply IH, Hm.
Qed.

Lemma map_get_good m k v :
  good_map m -> map_get m k = Some v -> good_list v.
Proof.
  intros Hm. induction m as [|[k' v'] m IH]; cbn; [discriminate|].
  apply Forall_cons in Hm. destruct Hm as [Hv' Hm].
  destruct (bool_decide (k' = k)); [intros [= <-]; exact Hv'|auto].
Qed.

Lemma populate_step_good qualifiedServices m container :
  good_map m -> good_map (populate_step qualifiedServices m container).
Proof.
  intros Hm. unfold populate_step.
  destruct (Labels container !! compose_label) as [raw|]; [|exact Hm].
  destruct (bool_decide (raw = EmptyString)); [exact Hm|].
  destruct (bool_decide (Js.toLowerCase raw ∈ qualifiedServices)); [|exact Hm].
  apply map_set_good; [exact Hm|].
  destruct (map_get m (Js.toLowerCase raw)) as [services|] eqn:Hget; cbn.
  - pose proof (map_get_good _ _ _ Hm Hget) as Hg.
    unfold Js.includes. case_bool_decide as Hin; [exact Hg|].
    destruct Hg as (Hne & Hnd & Hall). unfold Js.push. repeat split.
    + destruct services; discriminate.
    + apply NoDup_app. repeat split; [exact Hnd| |apply NoDup_singleton].
      intros x Hx Hx'. apply list_elem_of_singleton in Hx'. now subst.
    + apply Forall_app. split; [exact Hall|]. repeat constructor. discriminate.
  - unfold Js.includes. case_bool_decide as Hin.
    + now apply elem_of_nil in Hin.
    + repeat split; cbn; [discriminate|apply NoDup_singleton|].
      repeat constructor. discriminate.
Qed.

Lemma populate_good qualifiedServices containers :
  good_map (populate qualifiedServices containers).
Proof.
  unfold populate.
  assert (forall m, good_map m ->
            good_map (fold_left (populate_step qualifiedServices) containers m))
    as H.
  { induction containers as [|c rest IH]; intros m Hm; cbn; [exact Hm|].
    apply IH. now apply populate_step_good. }
  apply H. constructor.
Qed.

Lemma insert_left_perm {A} (comparefn : A -> A -> Z) prefix element :
  Permutation (Js.insert_left comparefn prefix element) (element :: prefix).
Proof.
  induction prefix as [|tmp rest IH]; cbn; [reflexivity|].
  destruct (Z.ltb 0 (comparefn tmp element)); [|reflexivity].
  rewrite IH. apply perm_swap.
Qed.

Lemma sort_perm {A} (comparefn : A -> A -> Z) (a : list A) :
  Permutation (Js.sort comparefn a) a.
Proof.
  unfold Js.sort. rewrite <- Permutation_rev.
  assert (forall acc, Permutation (fold_left (Js.insert_left comparefn) a acc)
                                  (acc ++ a)) as H.
  { induction a as [|e a IH]; intros acc; cbn; [now rewrite app_nil_r|].
    rewrite IH, insert_left_perm. cbn. apply Permutation_middle. }
  apply (H []).
Qed.

(* --------------------------------------------------------------------- *)
(* Discovery keeps the lists well-formed                                  *)
(* --------------------------------------------------------------------- *)

Lemma with_consulted_same st : with_consulted (consulted st) st = st.
Proof. now destruct st. Qed.

Lemma good_state_consulted n st : good_state (with_consulted n st) <-> good_state st.
Proof. reflexivity. Qed.

Lemma good_state_record a st :
  good_state st -> good_action a ->
  good_state (with_history (history st ++ [a]) st).
Proof.
  intros [Hm Hh] Ha. split; [exact Hm|]. cbn.
  apply Forall_app. split; [exact Hh|]. constructor; [exact Ha|constructor].
Qed.

Lemma good_state_set_map k v st :
  good_state st -> good_list v ->
  good_state (with_serviceMap (map_set (serviceMap st) k v) st).
Proof. intros [Hm Hh] Hv. split; [now apply map_set_good|exact Hh]. Qed.

Lemma good_state_intervals iv st :
  good_state (with_serviceIntervals iv st) <-> good_state st.
Proof. reflexivity. Qed.

Lemma good_state_mutex b st :
  good_state (with_workerMutex b st) <-> good_state st.
Proof. reflexivity. Qed.

Lemma collect_inspects_state w containerIds st :
  fst (collect_inspects w containerIds st)
  = with_consulted (consulted st + length containerIds) st.
Proof.
  revert st. induction containerIds as [|containerId rest IH]; intros st.
  - cbn. rewrite Nat.add_0_r. symmetry. apply with_consulted_same.
  - cbn [collect_inspects]. unfold consult.
    match goal with |- context [collect_inspects w rest ?s] =>
      specialize (IH s); destruct (collect_inspects w rest s) as [st2 rs] end.
    cbn in IH |- *. subst st2. unfold with_consulted. cbn. f_equal. lia.
Qed.

Lemma collect_inspects_ids w containerIds st containerInfo :
  inspect_faithful w ->
  snd (collect_inspects w containerIds st) = Ok containerInfo ->
  map (fun container => str (info_Id container)) containerInfo = containerIds.
Proof.
  intros Hw. revert st containerInfo.
  induction containerIds as [|containerId rest IH]; intros st infos.
  - cbn. now intros [= <-].
  - cbn [collect_inspects]. unfold consult.
    match goal with |- context [collect_inspects w rest ?s] =>
      specialize (IH s); destruct (collect_inspects w rest s) as [st2 rs] end.
    cbn in IH |- *.
    destruct (inspect w (consulted st) containerId) as [info|e] eqn:Hi;
      [|discriminate].
    destruct rs as [l|e]; [|discriminate].
    intros [= <-]. cbn. f_equal; [now apply (Hw _ _ _ Hi)|now apply IH].
Qed.

Lemma sort_inspected_eq w containerInfo st :
  sort_inspected w containerInfo st
  = (with_consulted (S (consulted st)) st,
     Ok (map (fun container => str (info_Id container))
           (Js.sort (age_comparefn (clock w (consulted st))) containerInfo))).
Proof. reflexivity. Qed.

Lemma commit_mapping_good w cfg i rootService sorted st :
  good_state st -> good_list sorted ->
  good_state (fst (commit_mapping w cfg i rootService sorted st)) /\
  snd (commit_mapping w cfg i rootService sorted st) = Ok tt.
Proof.
  intros Hst Hs. unfold commit_mapping. run_monad. cbn. split; [|reflexivity].
  destruct Hst as [Hm Hh]. split; cbn.
  - now apply map_set_good.
  - rewrite <- app_assoc. apply Forall_app. split; [exact Hh|].
    constructor; [exact Hs|]. constructor; [exact I|constructor].
Qed.

Lemma issue_inspects_good containerIds st :
  good_state st ->
  good_state (with_history (history st ++ map Inspect containerIds) st).
Proof.
  intros [Hm Hh]. split; [exact Hm|]. cbn. apply Forall_app. split; [exact Hh|].
  induction containerIds as [|c rest IH]; constructor; [exact I|exact IH].
Qed.

Lemma discovery_head_good st :
  good_state st ->
  good_state (fst (discovery_head st)) /\
  exists pc, snd (discovery_head st) = Ok pc /\ good_discovery pc.
Proof.
  intros Hst. unfold discovery_head. run_monad.
  destruct (_workerMutex st); cbn.
  - split; [exact Hst|]. eexists. split; [reflexivity|exact I].
  - split; [now apply good_state_record|]. eexists. split; [reflexivity|exact I].
Qed.

Lemma discovery_scan_good first_run candidate entries pos i st :
  good_state st -> good_map entries ->
  good_state (fst (discovery_scan first_run candidate entries pos i st)) /\
  exists pc,
    snd (discovery_scan first_run candidate entries pos i st) = Ok pc /\
    good_discovery pc.
Proof.
  intros Hst. revert pos.
  induction entries as [|[rootService containerIds] rest IH]; intros pos He;
    cbn [discovery_scan].
  - destruct first_run; [now apply discovery_head_good|].
    split; [exact Hst|]. eexists. split; [reflexivity|exact I].
  - apply Forall_cons in He. destruct He as [Hc He]. cbn in Hc.
    destruct first_run.
    + unfold issue_inspects. run_monad. cbn.
      split; [now apply issue_inspects_good|].
      eexists. split; [reflexivity|exact Hc].
    + destruct (map_get candidate rootService) as [newContainerIds|];
        [|now apply IH].
      destruct (idsDiffer containerIds newContainerIds); [|now apply IH].
      unfold issue_inspects. run_monad. cbn.
      split; [now apply issue_inspects_good|].
      eexists. split; [reflexivity|exact Hc].
Qed.

Lemma good_map_drop n m : good_map m -> good_map (drop n m).
Proof. apply Forall_drop. Qed.

Lemma discovery_resume_good w cfg pc st st' r :
  inspect_faithful w -> good_state st -> good_discovery pc ->
  discovery_resume w cfg pc st = (st', r) ->
  good_state st' /\
  match r with
  | Ok pc' => good_discovery pc'
  | Throw _ => True
  end.
Proof.
  intros Hw Hst Hpc. destruct pc as [| |first_run candidate pos i k ids|e];
    cbn [discovery_resume].
  - destruct (discovery_head_good st Hst) as (H1 & pc' & H2 & H3).
    intros Hrun. rewrite Hrun in H1, H2. cbn in H1, H2. subst r. auto.
  - unfold bind at 1. unfold consult. lazy beta.
    destruct (listContainers w (consulted st)) as [containers|e]; lazy beta iota;
      [|intros [= <- <-]; split; [exact Hst|exact I]].
    unfold bind at 1. unfold get. lazy beta iota.
    cbn [serviceMap with_consulted].
    pose proof (populate_good (services cfg) containers) as Hp.
    case_bool_decide as Hsize.
    + unfold bind, modify.
      match goal with |- context [discovery_scan ?a ?b ?c ?d ?e ?s] =>
        destruct (discovery_scan_good a b c d e s) as (H1 & pc' & H2 & H3) end.
      * split; [exact Hp|apply Hst].
      * exact Hp.
      * intros Hrun. rewrite Hrun in H1, H2. cbn in H1, H2. subst r. auto.
    + match goal with |- context [discovery_scan ?a ?b ?c ?d ?e ?s] =>
        destruct (discovery_scan_good a b c d e s) as (H1 & pc' & H2 & H3) end.
      * exact Hst.
      * apply Hst.
      * intros Hrun. rewrite Hrun in H1, H2. cbn in H1, H2. subst r. auto.
  - unfold bind at 1.
    pose proof (collect_inspects_state w ids st) as Hcs.
    pose proof (collect_inspects_ids w ids st) as Hci.
    destruct (collect_inspects w ids st) as [st1 [infos|e]];
      cbn in Hcs, Hci; subst st1;
      [|intros [= <- <-]; split; [exact Hst|exact I]].
    specialize (Hci infos Hw eq_refl).
    unfold bind at 1. rewrite sort_inspected_eq. unfold bind at 1.
    cbn in Hpc.
    match goal with |- context [commit_mapping w cfg i k ?sorted ?s] =>
      destruct (commit_mapping_good w cfg i k sorted s) as [H1 H2];
      [exact Hst| |destruct (commit_mapping w cfg i k sorted s) as [st2 r2]] end.
    { eapply good_list_perm; [|exact Hpc]. rewrite <- Hci at 1.
      apply Permutation_map. symmetry. apply sort_perm. }
    cbn in H1, H2. subst r2. unfold bind at 1. unfold get.
    match goal with |- context [discovery_scan ?a ?b ?c ?d ?e ?s] =>
      destruct (discovery_scan_good a b c d e s) as (H3 & pc' & H4 & H5) end.
    + exact H1.
    + apply good_map_drop, H1.
    + intros Hrun. rewrite Hrun in H3, H4. cbn in H3, H4. subst r. auto.
  - intros [= <- <-]. split; [exact Hst|exact I].
Qed.

(* --------------------------------------------------------------------- *)
(* The worker keeps the lists well-formed                                 *)
(* --------------------------------------------------------------------- *)

Lemma worker_select_good w cfg i rootService containerIds st st' r :
  good_state st -> good_list containerIds ->
  worker_select w cfg i (rootService, containerIds) st = (st', r) ->
  good_state st' /\
  match r with
  | Ok (Some (containerId, rotated)) =>
      good_list rotated /\ (containerId, rotated) = rotate containerIds /\
      exists s, containerId = str s
  | Ok None => True
  | Throw _ => False
  end.
Proof.
  intros [Hm Hh] Hc. unfold worker_select. run_monad.
  destruct (is_due _ _); [|intros [= <- <-]; split; [split; assumption|exact I]].
  destruct (good_list_head _ Hc) as (s & tail & -> & Hrot).
  pose proof (good_list_rotate _ Hc) as Hgr.
  rewrite Hrot in Hgr |- *. cbn [snd] in Hgr. run_monad. cbn.
  intros [= <- <-]. split; [split; cbn|].
  - now apply map_set_good.
  - apply Forall_app. split; [exact Hh|]. constructor; [exact I|constructor].
  - split; [exact Hgr|]. split; [reflexivity|]. now exists s.
Qed.

Lemma worker_scan_good w cfg entries pos i st st' r :
  good_state st -> good_map entries ->
  worker_scan w cfg entries pos i st = (st', r) ->
  good_state st' /\
  match r with
  | Ok pc => good_worker pc
  | Throw _ => False
  end.
Proof.
  revert pos st. induction entries as [|[rootService containerIds] rest IH];
    intros pos st Hst He; cbn [worker_scan].
  - unfold bind, modify, ret. intros [= <- <-]. split; [exact Hst|exact I].
  - apply Forall_cons in He. destruct He as [Hc He]. cbn in Hc.
    unfold bind at 1.
    destruct (worker_select w cfg i (rootService, containerIds) st)
      as [st1 r1] eqn:Hsel.
    destruct (worker_select_good _ _ _ _ _ _ _ _ Hst Hc Hsel) as [H1 H2].
    destruct r1 as [[[containerId rotated]|]|e]; [| |contradiction].
    + unfold bind, record, modify, ret. intros [= <- <-].
      split; [now apply good_state_record|].
      destruct H2 as (Hg & _ & s & ->). split; [exact Hg|discriminate].
    + now apply IH.
Qed.

Lemma worker_resume_good w cfg pc st st' r :
  good_state st -> good_worker pc ->
  worker_resume w cfg pc st = (st', r) ->
  good_state st' /\
  match r with
  | Ok pc' => good_worker pc'
  | Throw _ => True
  end.
Proof.
  intros Hst Hpc. destruct pc as [|pos i k cid rotated|pos i k cid rotated];
    cbn [worker_resume].
  - unfold ret. intros [= <- <-]. auto.
  - unfold bind, consult, record, modify, ret.
    destruct (stop w (consulted st) cid); intros [= <- <-].
    + split; [|exact Hpc]. split; cbn; [apply Hst|].
      apply Forall_app. split; [apply Hst|]. constructor; [exact I|constructor].
    + split; [exact Hst|exact I].
  - unfold bind at 1. unfold consult.
    destruct (start w (consulted st) cid); [|intros [= <- <-]; auto].
    unfold bind at 1. unfold worker_commit, bind, record, modify, get.
    intros Hscan. apply worker_scan_good in Hscan.
    + destruct Hscan as [H1 H2]. split; [exact H1|]. destruct r; tauto.
    + destruct Hst as [Hm Hh]. split; cbn.
      * apply map_set_good; [exact Hm|apply Hpc].
      * apply Forall_app. split; [exact Hh|].
        constructor; [apply Hpc|constructor].
    + cbn. apply good_map_drop. apply map_set_good; [apply Hst|apply Hpc].
Qed.

Lemma worker_tick_good w cfg st st' r :
  good_state st ->
  worker_tick w cfg st = (st', r) ->
  good_state st' /\
  match r with
  | Ok pc => good_worker pc
  | Throw _ => False
  end.
Proof.
  intros Hst. unfold worker_tick. unfold bind at 1. unfold get.
  destruct (_workerMutex st).
  - unfold ret. intros [= <- <-]. split; [exact Hst|exact I].
  - unfold bind, modify. intros Hscan.
    apply worker_scan_good in Hscan; [exact Hscan|exact Hst|apply Hst].
Qed.

Lemma step_good w cfg ev m m' :
  inspect_faithful w -> good_machine m ->
  step w cfg ev m = Some m' -> good_machine m'.
Proof.
  intros Hw (Hst & Hd & Hwk). destruct ev; cbn [step].
  - destruct (_workerMutex (shared m));
      [intros [= <-]; exact (conj Hst (conj Hd Hwk))|].
    destruct (worker m) eqn:Hpc; [|discriminate|discriminate].
    destruct (worker_tick w cfg (shared m)) as [st r] eqn:Hrun.
    destruct (worker_tick_good _ _ _ _ _ Hst Hrun) as [H1 H2].
    destruct r as [pc|e]; [|contradiction].
    intros [= <-]. exact (conj H1 (conj Hd H2)).
  - destruct (discovery m) as [| |first_run candidate pos i k ids|e] eqn:Hpc;
      [| | |discriminate];
      (match goal with |- context [discovery_resume w cfg ?pc ?s] =>
         destruct (discovery_resume w cfg pc s) as [st r] eqn:Hrun;
         destruct (discovery_resume_good _ _ _ _ _ _ Hw Hst Hd Hrun) as [H1 H2]
       end;
       destruct r as [pc'|e]; intros [= <-];
       [exact (conj H1 (conj H2 Hwk))|exact (conj H1 (conj I Hwk))]).
  - destruct (worker m) as [|pos i k cid rotated|pos i k cid rotated] eqn:Hpc;
      [discriminate| |];
      (match goal with |- context [worker_resume w cfg ?pc ?s] =>
         destruct (worker_resume w cfg pc s) as [st r] eqn:Hrun;
         destruct (worker_resume_good _ _ _ _ _ _ Hst Hwk Hrun) as [H1 H2]
       end;
       destruct r as [pc'|e]; intros [= <-];
       [exact (conj H1 (conj Hd H2))|exact (conj H1 (conj Hd I))]).
Qed.

Lemma run_good w cfg evs m m' :
  inspect_faithful w -> good_machine m ->
  run w cfg evs m = Some m' -> good_machine m'.
Proof.
  intros Hw. revert m. induction evs as [|ev rest IH]; intros m Hm; cbn.
  - now intros [= <-].
  - destruct (step w cfg ev m) as [m1|] eqn:Hstep; [|discriminate].
    apply IH. eapply step_good; eauto.
Qed.

Lemma boot_good : good_machine boot.
Proof. repeat split; constructor. Qed.

(** C10: with a daemon that answers each inspection with the container
    asked for, in every state the two loops can reach from start-up, under
    any interleaving, every container list in the Registry and every list
    ever committed with serviceMap.set is non-empty and duplicate-free
    (the candidate lists discovery builds from a listing are so to begin
    with); so the list the worker rotates has a head, that head is an id,
    and the id a pass in progress is restarting is defined. *)
Theorem committed_lists_well_formed w cfg evs m :
  inspect_faithful w ->
  run w cfg evs boot = Some m ->
  (forall containers rootService containerIds,
     In (rootService, containerIds) (populate (services cfg) containers) ->
     containerIds <> [] /\ NoDup containerIds) /\
  (forall rootService containerIds,
     In (SetServiceMap rootService containerIds) (history (shared m)) ->
     containerIds <> [] /\ NoDup containerIds) /\
  (forall rootService containerIds,
     In (rootService, containerIds) (serviceMap (shared m)) ->
     containerIds <> [] /\ NoDup containerIds /\
     exists s tail,
       containerIds = str s :: tail /\
       rotate containerIds = (str s, tail ++ [str s]) /\
       _containerIdDisplay (fst (rotate containerIds)) = Ok (Js.slice0 9 s)) /\
  match worker m with
  | W_idle => True
  | W_stopping _ _ _ containerId rotated
  | W_starting _ _ _ containerId rotated =>
      (exists s, containerId = str s) /\ rotated <> [] /\ NoDup rotated
  end.
Proof.
  intros Hw Hrun.
  destruct (run_good w cfg evs boot m Hw boot_good Hrun) as ((Hm & Hh) & _ & Hwk).
  split; [|split; [|split]].
  - intros containers k ids Hin.
    pose proof (populate_good (services cfg) containers) as Hp.
    unfold good_map in Hp. rewrite Forall_forall in Hp.
    apply list_elem_of_In, Hp in Hin. cbn in Hin. split; apply Hin.
  - intros k ids Hin. rewrite Forall_forall in Hh.
    apply list_elem_of_In, Hh in Hin. cbn in Hin. split; apply Hin.
  - intros k ids Hin. unfold good_map in Hm. rewrite Forall_forall in Hm.
    apply list_elem_of_In, Hm in Hin. cbn in Hin.
    split; [apply Hin|]. split; [apply Hin|].
    destruct (good_list_head _ Hin) as (s & tail & -> & Hrot).
    exists s, tail. split; [reflexivity|]. split; [exact Hrot|reflexivity].
  - destruct (worker m) as [|? ? ? cid rotated|? ? ? cid rotated];
      [exact I| |]; destruct Hwk as ((Hne & Hnd & _) & Hcid);
      (split; [destruct cid; [congruence|eauto]|split; assumption]).
Qed.

Lemma inspect_ok_faithful : inspect_faithful Sample.web_drifts.
Proof.
  intros n [|s] info; cbn; [discriminate|]. now intros [= <-].
Qed.

Lemma committed_lists_well_formed_witness :
  exists m,
    run Sample.web_drifts Sample.cfg
      [DiscoveryResumes; DiscoveryResumes; DiscoveryResumes; Tick;
       DiscoveryResumes; DiscoveryResumes; WorkerResumes] boot = Some m /\
    (forall rootService containerIds,
       In (rootService, containerIds) (serviceMap (shared m)) ->
       containerIds <> [] /\ NoDup containerIds /\
       exists s tail,
         containerIds = str s :: tail /\
         rotate containerIds = (str s, tail ++ [str s]) /\
         _containerIdDisplay (fst (rotate containerIds)) = Ok (Js.slice0 9 s)) /\
    match worker m with
    | W_idle => True
    | W_stopping _ _ _ containerId rotated
    | W_starting _ _ _ containerId rotated =>
        (exists s, containerId = str s) /\ rotated <> [] /\ NoDup rotated
    end.
Proof.
  eexists. split; [vm_compute; reflexivity|].
  refine (proj2 (proj2
    (committed_lists_well_formed Sample.web_drifts Sample.cfg
       [DiscoveryResumes; DiscoveryResumes; DiscoveryResumes; Tick;
        DiscoveryResumes; DiscoveryResumes; WorkerResumes] _
       inspect_ok_faithful _))).
  vm_compute. reflexivity.
Defined.

(* --------------------------------------------------------------------- *)
(* Staggering                                                             *)
(* --------------------------------------------------------------------- *)

Lemma dues_app h1 h2 : dues (h1 ++ h2) = dues h1 ++ dues h2.
Proof. unfold dues. apply omap_app. Qed.

Lemma dues_inspects containerIds : dues (map Inspect containerIds) = [].
Proof. induction containerIds as [|c rest IH]; cbn; [reflexivity|exact IH]. Qed.

Lemma assigned_app before after delta :
  history after = history before ++ delta -> assigned before after = dues delta.
Proof. intros H. unfold assigned. rewrite H. now rewrite drop_app_length. Qed.

Lemma for_of_steps {E} w base distance (body : nat -> E -> M nat) :
  body_steps w base distance body ->
  forall entries i st st' r,
    for_of body entries i st = (st', r) ->
    (consulted st <= consulted st')%nat /\
    exists delta readings,
      history st' = history st ++ delta /\
      StronglySorted lt readings /\
      Forall (fun n => (consulted st <= n < consulted st')%nat) readings /\
      dues delta
      = imap (fun k n => clock w n + base + distance * Z.of_nat (i + k)) readings /\
      forall i', r = Ok i' -> i' = (i + length readings)%nat.
Proof.
  intros Hbody. induction entries as [|e rest IH]; intros i st st' r; cbn [for_of].
  - unfold ret. intros [= <- <-]. split; [lia|]. exists [], [].
    rewrite app_nil_r. repeat split; try constructor.
    intros i' [= <-]. cbn. lia.
  - unfold bind. destruct (body i e st) as [st1 r1] eqn:Hb.
    destruct (Hbody _ _ _ _ _ Hb) as (Hc1 & d1 & Hh1 & Hcase).
    destruct r1 as [i1|err].
    + intros Hrest.
      destruct (IH _ _ _ _ Hrest) as (Hc2 & d2 & ns & Hh2 & Hs & Hr & Hd & Hi).
      split; [lia|].
      destruct Hcase as [[Hd1 Hi1]|(n & Hn & Hd1 & Hi1)];
        specialize (Hi1 i1 eq_refl); subst i1.
      * exists (d1 ++ d2), ns. rewrite Hh2, Hh1, app_assoc. split; [reflexivity|].
        split; [exact Hs|]. split.
        { eapply Forall_impl; [exact Hr|]. cbn. intros; lia. }
        split; [|exact Hi]. now rewrite dues_app, Hd1, Hd.
      * exists (d1 ++ d2), (n :: ns). rewrite Hh2, Hh1, app_assoc.
        split; [reflexivity|]. split.
        { constructor; [exact Hs|].
          eapply Forall_impl; [exact Hr|]. cbn. intros; lia. }
        split.
        { constructor; [lia|]. eapply Forall_impl; [exact Hr|]. cbn. intros; lia. }
        split.
        { rewrite dues_app, Hd1, Hd. cbn. rewrite Nat.add_0_r. f_equal.
          apply imap_ext. intros k x _. cbn. do 2 f_equal. lia. }
        intros i' Hr'. rewrite (Hi i' Hr'). cbn. lia.
    + intros [= <- <-]. split; [lia|].
      destruct Hcase as [[Hd1 _]|(n & Hn & Hd1 & _)].
      * exists d1, []. split; [exact Hh1|]. repeat split; try constructor.
        { exact Hd1. } { discriminate. }
      * exists d1, [n]. split; [exact Hh1|]. split; [repeat constructor|].
        split; [repeat constructor; lia|]. split; [|discriminate].
        rewrite Hd1. cbn. now rewrite Nat.add_0_r.
Qed.

Lemma body_steps_staggers {E} w base distance (body : nat -> E -> M nat) :
  body_steps w base distance body -> staggers w base distance body.
Proof.
  intros Hbody entries i st st' r Hrun.
  destruct (for_of_steps w base distance body Hbody _ _ _ _ _ Hrun)
    as (_ & delta & ns & Hh & Hs & Hr & Hd & Hi).
  exists ns. rewrite (assigned_app _ _ _ Hh). auto.
Qed.

Lemma worker_service_steps w cfg :
  body_steps w (rolloverInterval cfg) (serviceRerollDistance cfg)
    (worker_service w cfg).
Proof.
  intros i [rootService containerIds] st st' r.
  unfold worker_service. run_monad.
  destruct (is_due _ _).
  - destruct (rotate containerIds) as [containerId rotated]. run_monad.
    destruct (_containerIdDisplay containerId);
      [destruct (stop w _ containerId);
         [destruct (start w _ containerId)|]|];
      intros [= <- <-]; cbn; (split; [lia|]);
      (eexists; split; [rewrite <- ?app_assoc; reflexivity|]);
      right; exists (S (consulted st)); (split; [lia|]);
      (split; [reflexivity|]); intros i'; now intros [= <-].
  - intros [= <- <-]. cbn. split; [lia|]. exists [].
    rewrite app_nil_r. split; [reflexivity|]. left.
    split; [reflexivity|]. intros i'. now intros [= <-].
Qed.

Lemma remap_steps w cfg i rootService containerIds st st' r :
  (let! _ := _updateServiceMapping w cfg i rootService containerIds in ret (S i)) st
  = (st', r) ->
  (consulted st <= consulted st')%nat /\
  exists delta,
    history st' = history st ++ delta /\
    ((dues delta = [] /\ forall i', r = Ok i' -> i' = i) \/
     (exists n, (consulted st <= n < consulted st')%nat /\
        dues delta = [clock w n + initialDebounce cfg
                      + serviceRerollDistance cfg * Z.of_nat i] /\
        forall i', r = Ok i' -> i' = S i)).
Proof.
  unfold bind, ret.
  destruct (_updateServiceMapping w cfg i rootService containerIds st)
    as [st1 [[]|e]] eqn:Hrun; intros [= <- <-].
  - destruct (updateServiceMapping_ok _ _ _ _ _ _ _ Hrun)
      as (st0 & sorted & _ & _ & _ & _ & Hc & Hle & Hh).
    split; [lia|]. eexists. split; [exact Hh|]. right.
    exists (consulted st0). split; [lia|]. split.
    + rewrite dues_app, dues_inspects. reflexivity.
    + intros i'. now intros [= <-].
  - destruct (updateServiceMapping_throw _ _ _ _ _ _ _ _ Hrun)
      as (_ & _ & _ & Hle & Hh).
    split; [lia|]. eexists. split; [exact Hh|]. left.
    split; [apply dues_inspects|discriminate].
Qed.

Lemma first_run_body_steps w cfg :
  body_steps w (initialDebounce cfg) (serviceRerollDistance cfg)
    (first_run_body w cfg).
Proof.
  intros i [rootService containerIds] st st' r. unfold first_run_body.
  apply remap_steps.
Qed.

Lemma drift_body_steps w cfg candidate :
  body_steps w (initialDebounce cfg) (serviceRerollDistance cfg)
    (drift_body w cfg candidate).
Proof.
  intros i [rootService containerIds] st st' r. unfold drift_body.
  assert (ret i st = (st', r) ->
          (consulted st <= consulted st')%nat /\
          exists delta,
            history st' = history st ++ delta /\
            ((dues delta = [] /\ forall i', r = Ok i' -> i' = i) \/
             (exists n, (consulted st <= n < consulted st')%nat /\
                dues delta = [clock w n + initialDebounce cfg
                              + serviceRerollDistance cfg * Z.of_nat i] /\
                forall i', r = Ok i' -> i' = S i))) as Hskip.
  { unfold ret. intros [= <- <-]. split; [lia|]. exists [].
    rewrite app_nil_r. split; [reflexivity|]. left.
    split; [reflexivity|]. intros i'. now intros [= <-]. }
  destruct (map_get candidate rootService) as [newContainerIds|]; [|exact Hskip].
  destruct (idsDiffer containerIds newContainerIds); [|exact Hskip].
  apply remap_steps.
Qed.

(* Successive due times of a staggered loop differ by the reroll distance
   plus the time that passed between the two readings of the clock. *)
Lemma stagger_gap w base distance i (readings : list nat) k x y :
  imap (fun k n => clock w n + base + distance * Z.of_nat (i + k)) readings !! k
  = Some x ->
  imap (fun k n => clock w n + base + distance * Z.of_nat (i + k)) readings !! S k
  = Some y ->
  exists n n',
    readings !! k = Some n /\ readings !! S k = Some n' /\
    y - x = distance + (clock w n' - clock w n).
Proof.
  rewrite !list_lookup_imap.
  destruct (readings !! k) as [n|]; [|discriminate].
  destruct (readings !! S k) as [n'|]; [|discriminate].
  cbn. intros [= <-] [= <-]. exists n, n'. repeat split. nia.
Qed.

Lemma sorted_successive (readings : list nat) k n n' :
  StronglySorted lt readings ->
  readings !! k = Some n -> readings !! S k = Some n' -> (n < n')%nat.
Proof.
  intros Hs. revert k. induction Hs as [|a l Hs IH Hall]; intros k; [discriminate|].
  destruct k as [|k]; cbn.
  - intros [= <-] Hn'. rewrite Forall_forall in Hall. apply Hall.
    eapply list_elem_of_lookup_2. exact Hn'.
  - apply IH.
Qed.

Lemma worker_pass_staggered w cfg st st' r :
  _worker w cfg st = (st', r) ->
  pass_staggered w (rolloverInterval cfg) (serviceRerollDistance cfg) st st'.
Proof.
  unfold _worker. unfold bind at 1. unfold get.
  destruct (_workerMutex st).
  - unfold ret. intros [= <- <-]. exists []. split; [constructor|].
    apply (assigned_app st st []). now rewrite app_nil_r.
  - unfold bind at 1. unfold modify at 1. unfold bind at 1.
    destruct (for_of _ _ _ _) as [st1 r1] eqn:Hloop.
    destruct (for_of_steps _ _ _ _ (worker_service_steps w cfg) _ _ _ _ _ Hloop)
      as (_ & delta & ns & Hh & Hs & _ & Hd & _).
    cbn in Hh, Hd.
    destruct r1 as [i'|e]; unfold modify; intros [= <- <-];
      (exists ns; split; [exact Hs|]);
      rewrite (assigned_app st _ delta) by exact Hh; exact Hd.
Qed.

Lemma discovery_pass_staggered w cfg st st' r :
  _updateMemory_iteration w cfg st = (st', r) ->
  pass_staggered w (initialDebounce cfg) (serviceRerollDistance cfg) st st'.
Proof.
  unfold _updateMemory_iteration. unfold bind at 1. unfold get at 1.
  destruct (_workerMutex st).
  - unfold ret. intros [= <- <-]. exists []. split; [constructor|].
    apply (assigned_app st st []). now rewrite app_nil_r.
  - unfold bind at 1. unfold docker_listContainers, bind, record, modify, consult.
    cbn [consulted history with_history with_consulted].
    destruct (listContainers w (consulted st)) as [containers|e].
    + unfold get. cbn [serviceMap with_consulted with_history].
      case_bool_decide as Hsize.
      * destruct (for_of _ _ _ _) as [st1 r1] eqn:Hloop.
        destruct (for_of_steps _ _ _ _ (first_run_body_steps w cfg) _ _ _ _ _ Hloop)
          as (_ & delta & ns & Hh & Hs & _ & Hd & _).
        cbn in Hh, Hd.
        assert (assigned st st1 = dues delta) as Ha.
        { rewrite (assigned_app st st1 ([ListContainers] ++ delta)).
          - reflexivity.
          - now rewrite Hh, <- app_assoc. }
        destruct r1 as [i'|e]; unfold ret; intros [= <- <-];
          (exists ns; split; [exact Hs|]); now rewrite Ha.
      * destruct (for_of _ _ _ _) as [st1 r1] eqn:Hloop.
        destruct (for_of_steps _ _ _ _
                    (drift_body_steps w cfg (populate (services cfg) containers))
                    _ _ _ _ _ Hloop)
          as (_ & delta & ns & Hh & Hs & _ & Hd & _).
        cbn in Hh, Hd.
        assert (assigned st st1 = dues delta) as Ha.
        { rewrite (assigned_app st st1 ([ListContainers] ++ delta)).
          - reflexivity.
          - now rewrite Hh, <- app_assoc. }
        destruct r1 as [i'|e]; unfold ret; intros [= <- <-];
          (exists ns; split; [exact Hs|]); now rewrite Ha.
    + intros [= <- <-]. exists []. split; [constructor|].
      now rewrite (assigned_app st _ [ListContainers]).
Qed.

(** C5 (as amended): in every pass, of the worker or of discovery, the
    running index grows only when a service is acted upon, and the due
    time given to the k-th service acted upon is the clock reading taken
    at that assignment plus the base delay (rolloverInterval for a
    rollover, initialDebounce for a remap) plus k reroll distances; so it
    exceeds the due time of the one before by serviceRerollDistance plus
    the time that passed between the two readings of the clock. *)
Theorem staggering w cfg :
  staggers w (rolloverInterval cfg) (serviceRerollDistance cfg)
    (worker_service w cfg) /\
  staggers w (initialDebounce cfg) (serviceRerollDistance cfg)
    (first_run_body w cfg) /\
  (forall candidate,
     staggers w (initialDebounce cfg) (serviceRerollDistance cfg)
       (drift_body w cfg candidate)) /\
  (forall st st' r,
     _worker w cfg st = (st', r) ->
     pass_staggered w (rolloverInterval cfg) (serviceRerollDistance cfg) st st') /\
  (forall st st' r,
     _updateMemory_iteration w cfg st = (st', r) ->
     pass_staggered w (initialDebounce cfg) (serviceRerollDistance cfg) st st') /\
  (forall base st st' (k : nat) (x y : Z),
     pass_staggered w base (serviceRerollDistance cfg) st st' ->
     assigned st st' !! k = Some x ->
     assigned st st' !! S k = Some y ->
     exists n n' : nat,
       (n < n')%nat /\
       y - x = serviceRerollDistance cfg + (clock w n' - clock w n)).
Proof.
  split; [apply body_steps_staggers, worker_service_steps|].
  split; [apply body_steps_staggers, first_run_body_steps|].
  split; [intros candidate; apply body_steps_staggers, drift_body_steps|].
  split; [apply worker_pass_staggered|].
  split; [apply discovery_pass_staggered|].
  intros base st st' k x y (readings & Hs & Ha) Hx Hy.
  rewrite Ha in Hx, Hy.
  destruct (stagger_gap w base (serviceRerollDistance cfg) 0 readings k x y Hx Hy)
    as (n & n' & Hn & Hn' & Hgap).
  exists n, n'. split; [|exact Hgap].
  eapply sorted_successive; eauto.
Qed.

Lemma staggering_witness :
  exists n n' : nat,
    (n < n')%nat /\
    2101005 - 1801001
    = serviceRerollDistance Sample.cfg
      + (clock (Sample.calm 1000 1 []) n' - clock (Sample.calm 1000 1 []) n).
Proof.
  pose proof (staggering (Sample.calm 1000 1 []) Sample.cfg)
    as (_ & _ & _ & Hpass & _ & Hgap).
  apply (Hgap (rolloverInterval Sample.cfg)
           (Sample.registry Sample.web_db 0)
           (fst (_worker (Sample.calm 1000 1 []) Sample.cfg
                   (Sample.registry Sample.web_db 0)))
           0%nat 1801001 2101005).
  - apply (Hpass _ _ (Ok tt)). vm_compute. reflexivity.
  - vm_compute. reflexivity.
  - vm_compute. reflexivity.
Defined.

(* With a clock that moves between the two restarts the gap is not the
   reroll distance: web and db, both due, get due times 300004 apart while
   serviceRerollDistance is 300000. *)
Lemma stagger_not_exact :
  ~ evenly_spaced (serviceRerollDistance Sample.cfg)
      (assigned (Sample.registry Sample.web_db 0)
         (fst (_worker (Sample.calm 1000 1 []) Sample.cfg
                 (Sample.registry Sample.web_db 0)))).
Proof.
  intros Heven.
  assert (assigned (Sample.registry Sample.web_db 0)
            (fst (_worker (Sample.calm 1000 1 []) Sample.cfg
                    (Sample.registry Sample.web_db 0)))
          = [1801001; 2101005]) as Ha by (vm_compute; reflexivity).
  rewrite Ha in Heven.
  specialize (Heven 0%nat 1801001 2101005 eq_refl eq_refl).
  vm_compute in Heven. discriminate.
Qed.

(* --------------------------------------------------------------------- *)
(* The worker function and the worker coroutine agree                     *)
(* --------------------------------------------------------------------- *)

Lemma map_set_at (m : list (string * list value)) pos k v0 v :
  unique_keys m -> m !! pos = Some (k, v0) ->
  map_set m k v = <[pos := (k, v)]> m.
Proof.
  unfold unique_keys. revert pos.
  induction m as [|[k' v'] m IH]; intros pos Hnd Hpos; [discriminate|].
  cbn in Hnd. apply NoDup_cons in Hnd. destruct Hnd as [Hnotin Hnd].
  destruct pos as [|pos]; cbn in Hpos |- *.
  - injection Hpos as -> ->. now rewrite bool_decide_eq_true_2.
  - case_bool_decide as Hk.
    + subst k'. exfalso. apply Hnotin.
      apply list_elem_of_fmap. exists (k, v0). split; [reflexivity|].
      eapply list_elem_of_lookup_2. exact Hpos.
    + f_equal. now apply IH.
Qed.

Lemma map_set_at_keys (m : list (string * list value)) pos k v0 v :
  unique_keys m -> m !! pos = Some (k, v0) ->
  unique_keys (map_set m k v) /\
  drop (S pos) (map_set m k v) = drop (S pos) m /\
  map_set m k v !! pos = Some (k, v).
Proof.
  intros Hu Hpos. rewrite (map_set_at m pos k v0 v Hu Hpos).
  assert (pos < length m)%nat as Hlt by (eapply lookup_lt_Some; eauto).
  split; [|split].
  - unfold unique_keys in *. rewrite list_fmap_insert. cbn.
    rewrite list_insert_id; [exact Hu|].
    rewrite list_lookup_fmap, Hpos. reflexivity.
  - apply drop_insert_lt. lia.
  - now apply list_lookup_insert_eq.
Qed.

Lemma drop_lookup_head {A} (l rest : list A) pos x :
  drop pos l = x :: rest -> l !! pos = Some x /\ drop (S pos) l = rest.
Proof.
  intros H. split.
  - pose proof (lookup_drop l pos 0) as E. rewrite H, Nat.add_0_r in E.
    now symmetry.
  - pose proof (drop_drop l 1 pos) as E. rewrite H, Nat.add_1_r in E.
    now symmetry.
Qed.

Lemma worker_select_map w cfg i rootService containerIds st st1 r :
  worker_select w cfg i (rootService, containerIds) st = (st1, r) ->
  match r with
  | Ok None => serviceMap st1 = serviceMap st
  | Ok (Some (_, rotated)) =>
      serviceMap st1 = map_set (serviceMap st) rootService rotated
  | Throw _ => True
  end.
Proof.
  unfold worker_select. run_monad. destruct (is_due _ _).
  - destruct (rotate containerIds) as [containerId rotated]. run_monad.
    destruct (_containerIdDisplay containerId); intros [= <- <-]; cbn; auto.
  - now intros [= <- <-].
Qed.

(* The body of the function's loop, by what the daemon answers. *)
Lemma worker_service_cases w cfg i service st :
  worker_service w cfg i service st
  = match worker_select w cfg i service st with
    | (st1, Ok (Some (containerId, rotated))) =>
        let st2 := with_consulted (S (consulted st1))
                     (with_history (history st1 ++ [Stop containerId]) st1) in
        match stop w (consulted st1) containerId with
        | Ok _ =>
            let st3 := with_consulted (S (consulted st2))
                         (with_history (history st2 ++ [Start containerId]) st2) in
            match start w (consulted st2) containerId with
            | Ok _ => (fst (worker_commit (fst service) rotated st3), Ok (S i))
            | Throw e => (st3, Throw e)
            end
        | Throw e => (st2, Throw e)
        end
    | (st1, Ok None) => (st1, Ok i)
    | (st1, Throw e) => (st1, Throw e)
    end.
Proof.
  unfold worker_service. unfold bind at 1.
  destruct (worker_select w cfg i service st) as [st1 [[[containerId rotated]|]|e]];
    [|reflexivity|reflexivity].
  unfold docker_stop, docker_start, bind, record, modify, consult, ret.
  cbn [consulted history with_history with_consulted].
  destruct (stop w (consulted st1) containerId); [|reflexivity].
  destruct (start w (S (consulted st1)) containerId); reflexivity.
Qed.

Lemma for_of_cons {E} (body : nat -> E -> M nat) e rest i st :
  for_of body (e :: rest) i st
  = match body i e st with
    | (st1, Ok i1) => for_of body rest i1 st1
    | (st1, Throw err) => (st1, Throw err)
    end.
Proof. reflexivity. Qed.

Lemma worker_scan_cons w cfg rootService containerIds rest pos i st :
  worker_scan w cfg ((rootService, containerIds) :: rest) pos i st
  = match worker_select w cfg i (rootService, containerIds) st with
    | (st1, Ok (Some (containerId, rotated))) =>
        (with_history (history st1 ++ [Stop containerId]) st1,
         Ok (W_stopping pos i rootService containerId rotated))
    | (st1, Ok None) => worker_scan w cfg rest (S pos) i st1
    | (st1, Throw e) => (st1, Throw e)
    end.
Proof.
  cbn [worker_scan]. unfold bind at 1.
  destruct (worker_select w cfg i (rootService, containerIds) st)
    as [st1 [[[containerId rotated]|]|e]]; reflexivity.
Qed.

Lemma worker_resume_stopping w cfg pos i rootService containerId rotated st :
  worker_resume w cfg (W_stopping pos i rootService containerId rotated) st
  = match stop w (consulted st) containerId with
    | Ok _ =>
        (with_history (history st ++ [Start containerId])
           (with_consulted (S (consulted st)) st),
         Ok (W_starting pos i rootService containerId rotated))
    | Throw e => (with_consulted (S (consulted st)) st, Throw e)
    end.
Proof.
  cbn [worker_resume]. unfold bind, consult, record, modify, ret.
  destruct (stop w (consulted st) containerId); reflexivity.
Qed.

Lemma worker_resume_starting w cfg pos i rootService containerId rotated st :
  worker_resume w cfg (W_starting pos i rootService containerId rotated) st
  = match start w (consulted st) containerId with
    | Ok _ =>
        let st' := fst (worker_commit rootService rotated
                          (with_consulted (S (consulted st)) st)) in
        worker_scan w cfg (drop (S pos) (serviceMap st')) (S pos) (S i) st'
    | Throw e => (with_consulted (S (consulted st)) st, Throw e)
    end.
Proof.
  cbn [worker_resume]. unfold bind at 1. unfold consult.
  destruct (start w (consulted st) containerId); reflexivity.
Qed.

(* From any point of the loop on, the coroutine left alone ends where
   the loop of the function ends. *)
Lemma scan_alone w cfg d rest :
  forall pos i st,
    unique_keys (serviceMap st) -> drop pos (serviceMap st) = rest ->
    exists n,
      run w cfg (replicate n WorkerResumes)
        (settle_worker d (worker_scan w cfg rest pos i st))
      = Some (settle_worker d
                match for_of (worker_service w cfg) rest i st with
                | (st', Ok _) => (with_workerMutex false st', Ok W_idle)
                | (st', Throw e) => (st', Throw e)
                end).
Proof.
  induction rest as [|[rootService containerIds] rest IH]; intros pos i st Hu Hdrop.
  - exists 0%nat. reflexivity.
  - apply drop_lookup_head in Hdrop. destruct Hdrop as [Hpos Hrest].
    rewrite for_of_cons, worker_scan_cons, worker_service_cases.
    destruct (worker_select w cfg i (rootService, containerIds) st)
      as [st1 r1] eqn:Hsel.
    pose proof (worker_select_map _ _ _ _ _ _ _ _ Hsel) as Hmap.
    destruct r1 as [[[containerId rotated]|]|e].
    + destruct (map_set_at_keys _ pos rootService containerIds rotated Hu Hpos)
        as (Hu1 & Hd1 & Hp1).
      rewrite <- Hmap in Hu1, Hd1, Hp1.
      destruct (map_set_at_keys _ pos rootService rotated rotated Hu1 Hp1)
        as (Hu2 & Hd2 & _).
      cbn zeta. cbn [settle_worker consulted with_history with_consulted fst].
      destruct (stop w (consulted st1) containerId) as [[]|e] eqn:Hstop.
      * destruct (start w (S (consulted st1)) containerId) as [[]|e] eqn:Hstart.
        -- match goal with |- context [for_of _ rest (S i) ?s] =>
             destruct (IH (S pos) (S i) s) as [n Hn] end.
           { exact Hu2. }
           { cbn. cbn in Hd2. rewrite Hd2, Hd1. exact Hrest. }
           exists (S (S n)). cbn [replicate run step worker shared].
           rewrite worker_resume_stopping.
           cbn [consulted with_history with_consulted].
           rewrite Hstop. cbn [run step worker shared].
           rewrite worker_resume_starting.
           cbn [consulted with_history with_consulted].
           rewrite Hstart. cbn zeta.
           unfold worker_commit, bind, record, modify, ret in Hn, Hd2 |- *.
           cbn [fst serviceMap history consulted _workerMutex serviceIntervals
                with_history with_consulted with_serviceMap] in Hn, Hd2 |- *.
           rewrite Hd2, Hd1, Hrest.
           unfold settle_worker in Hn at 1.
           match goal with |- context [worker_scan w cfg rest (S pos) (S i) ?s] =>
             destruct (worker_scan w cfg rest (S pos) (S i) s) as [s4 [pc4|e4]]
           end; exact Hn.
        -- exists 2%nat. cbn [replicate run step worker shared].
           rewrite worker_resume_stopping.
           cbn [consulted with_history with_consulted].
           rewrite Hstop. cbn [run step worker shared].
           rewrite worker_resume_starting.
           cbn [consulted with_history with_consulted].
           rewrite Hstart. reflexivity.
      * exists 1%nat. cbn [replicate run step worker shared].
        rewrite worker_resume_stopping.
        cbn [consulted with_history with_consulted].
        rewrite Hstop. reflexivity.
    + apply (IH (S pos) i st1).
      * now rewrite Hmap.
      * now rewrite Hmap.
    + exists 0%nat. reflexivity.
Qed.

Lemma worker_tick_eq w cfg st :
  worker_tick w cfg st
  = if _workerMutex st then (st, Ok W_idle)
    else worker_scan w cfg (serviceMap st) 0 0 (with_workerMutex true st).
Proof.
  unfold worker_tick. unfold bind at 1. unfold get.
  destruct (_workerMutex st); reflexivity.
Qed.

Lemma worker_eq w cfg st :
  _worker w cfg st
  = if _workerMutex st then (st, Ok tt)
    else match for_of (worker_service w cfg) (serviceMap st) 0
                 (with_workerMutex true st) with
         | (st', Ok _) => (with_workerMutex false st', Ok tt)
         | (st', Throw e) => (st', Throw e)
         end.
Proof.
  unfold _worker. unfold bind at 1. unfold get.
  destruct (_workerMutex st); reflexivity.
Qed.

(* A pass that nothing interrupts: the tick and then the settling of the
   worker's own promises take the machine to the state the function
   _worker computes, and the worker is idle again. *)
Lemma worker_alone w cfg m st' r :
  worker m = W_idle ->
  unique_keys (serviceMap (shared m)) ->
  _worker w cfg (shared m) = (st', r) ->
  exists n,
    run w cfg (Tick :: replicate n WorkerResumes) m
    = Some {| shared := st'; discovery := discovery m; worker := W_idle |}.
Proof.
  intros Hidle Hu. rewrite worker_eq. cbn [run step].
  destruct (_workerMutex (shared m)) eqn:Hm.
  - intros [= <- <-]. exists 0%nat. cbn. destruct m; cbn in *. now subst.
  - rewrite Hidle, worker_tick_eq, Hm.
    destruct (scan_alone w cfg (discovery m) (serviceMap (shared m)) 0 0
                (with_workerMutex true (shared m)) Hu eq_refl) as [n Hn].
    intros Hrun. exists n. unfold settle_worker in Hn at 1.
    destruct (worker_scan _ _ _ _ _ _) as [s1 [pc1|e1]];
      rewrite Hn;
      destruct (for_of _ _ _ _) as [s2 [i2|e2]];
      injection Hrun as <- <-; reflexivity.
Qed.

(* --------------------------------------------------------------------- *)
(* The shared map keeps one entry per service                             *)
(* --------------------------------------------------------------------- *)

Lemma map_set_keys_incl {V} (m : list (string * V)) k v x :
  x ∈ map fst (map_set m k v) -> x = k \/ x ∈ map fst m.
Proof.
  induction m as [|[k' v'] m IH]; cbn.
  - intros H. apply list_elem_of_singleton in H. auto.
  - destruct (bool_decide (k' = k)) eqn:E; cbn; intros H.
    + apply elem_of_cons in H. destruct H as [->|H]; [auto|].
      right. apply elem_of_cons; auto.
    + apply elem_of_cons in H. destruct H as [->|H].
      * right. apply elem_of_cons; auto.
      * destruct (IH H) as [->|Hx]; [auto|]. right.
        apply elem_of_cons; auto.
Qed.

Lemma map_set_unique (m : list (string * list value)) k v :
  unique_keys m -> unique_keys (map_set m k v).
Proof.
  unfold unique_keys. induction m as [|[k' v'] m IH]; cbn; intros Hnd.
  - apply NoDup_singleton.
  - apply NoDup_cons in Hnd. destruct Hnd as [Hnotin Hnd].
    case_bool_decide as Hk; cbn; apply NoDup_cons.
    + subst k'. auto.
    + split; [|auto]. intros Hin. apply map_set_keys_incl in Hin.
      destruct Hin as [->|Hin]; [congruence|contradiction].
Qed.

Lemma populate_unique qualifiedServices containers :
  unique_keys (populate qualifiedServices containers).
Proof.
  unfold populate.
  assert (forall m, unique_keys m ->
            unique_keys (fold_left (populate_step qualifiedServices) containers m))
    as H.
  { induction containers as [|c rest IH]; intros m Hm; cbn; [exact Hm|].
    apply IH. unfold populate_step.
    destruct (Labels c !! compose_label) as [raw|]; [|exact Hm].
    destruct (bool_decide (raw = EmptyString)); [exact Hm|].
    destruct (bool_decide (Js.toLowerCase raw ∈ qualifiedServices)); [|exact Hm].
    now apply map_set_unique. }
  apply H. constructor.
Qed.

Lemma discovery_head_map st :
  serviceMap (fst (discovery_head st)) = serviceMap st.
Proof. unfold discovery_head. run_monad. now destruct (_workerMutex st). Qed.

Lemma discovery_scan_map first_run candidate entries pos i st :
  serviceMap (fst (discovery_scan first_run candidate entries pos i st))
  = serviceMap st.
Proof.
  revert pos. induction entries as [|[rootService containerIds] rest IH];
    intros pos; cbn [discovery_scan].
  - destruct first_run; [apply discovery_head_map|reflexivity].
  - destruct first_run; [reflexivity|].
    destruct (map_get candidate rootService) as [newContainerIds|]; [|apply IH].
    destruct (idsDiffer containerIds newContainerIds); [reflexivity|apply IH].
Qed.

Lemma discovery_resume_unique w cfg pc st :
  unique_keys (serviceMap st) ->
  unique_keys (serviceMap (fst (discovery_resume w cfg pc st))).
Proof.
  intros Hu. destruct pc as [| |first_run candidate pos i k ids|e];
    cbn [discovery_resume].
  - now rewrite discovery_head_map.
  - unfold bind at 1. unfold consult.
    destruct (listContainers w (consulted st)) as [containers|e]; [|exact Hu].
    unfold bind at 1. unfold get. cbn [serviceMap with_consulted].
    case_bool_decide as Hsize.
    + unfold bind, modify. rewrite discovery_scan_map. apply populate_unique.
    + rewrite discovery_scan_map. exact Hu.
  - unfold bind at 1.
    pose proof (collect_inspects_state w ids st) as Hcs.
    destruct (collect_inspects w ids st) as [st1 [infos|e]];
      cbn in Hcs; subst st1; [|exact Hu].
    unfold bind at 1. rewrite sort_inspected_eq.
    unfold commit_mapping, Date_now, bind, consult, record, modify, get.
    rewrite discovery_scan_map. cbn. now apply map_set_unique.
  - exact Hu.
Qed.

Lemma worker_select_unique w cfg i service st :
  unique_keys (serviceMap st) ->
  unique_keys (serviceMap (fst (worker_select w cfg i service st))).
Proof.
  intros Hu. destruct service as [rootService containerIds].
  unfold worker_select. run_monad. destruct (is_due _ _); [|exact Hu].
  destruct (rotate containerIds) as [containerId rotated]. run_monad.
  destruct (_containerIdDisplay containerId); cbn; now apply map_set_unique.
Qed.

Lemma worker_scan_unique w cfg entries pos i st :
  unique_keys (serviceMap st) ->
  unique_keys (serviceMap (fst (worker_scan w cfg entries pos i st))).
Proof.
  revert pos st. induction entries as [|[rootService containerIds] rest IH];
    intros pos st Hu; [exact Hu|].
  rewrite worker_scan_cons.
  pose proof (worker_select_unique w cfg i (rootService, containerIds) st Hu) as H.
  destruct (worker_select w cfg i (rootService, containerIds) st)
    as [st1 [[[containerId rotated]|]|e]]; cbn in H |- *; auto.
Qed.

Lemma worker_resume_unique w cfg pc st :
  unique_keys (serviceMap st) ->
  unique_keys (serviceMap (fst (worker_resume w cfg pc st))).
Proof.
  intros Hu. destruct pc as [|pos i k cid rotated|pos i k cid rotated].
  - exact Hu.
  - rewrite worker_resume_stopping.
    destruct (stop w (consulted st) cid); exact Hu.
  - rewrite worker_resume_starting.
    destruct (start w (consulted st) cid); [|exact Hu].
    cbn zeta. apply worker_scan_unique. cbn. now apply map_set_unique.
Qed.

Lemma step_unique w cfg ev m m' :
  unique_keys (serviceMap (shared m)) ->
  step w cfg ev m = Some m' ->
  unique_keys (serviceMap (shared m')).
Proof.
  intros Hu. destruct ev; cbn [step].
  - destruct (_workerMutex (shared m)) eqn:Hm; [now intros [= <-]|].
    destruct (worker m); [|discriminate|discriminate].
    rewrite worker_tick_eq, Hm.
    pose proof (worker_scan_unique w cfg (serviceMap (shared m)) 0 0
                  (with_workerMutex true (shared m)) Hu) as H.
    destruct (worker_scan _ _ _ _ _ _) as [st [pc|e]]; now intros [= <-].
  - destruct (discovery m) as [| |first_run candidate pos i k ids|e] eqn:Hpc;
      [| | |discriminate];
      (match goal with |- context [discovery_resume w cfg ?pc ?s] =>
         pose proof (discovery_resume_unique w cfg pc s Hu) as H;
         destruct (discovery_resume w cfg pc s) as [st [pc'|e]] end;
       now intros [= <-]).
  - destruct (worker m) as [|pos i k cid rotated|pos i k cid rotated] eqn:Hpc;
      [discriminate| |];
      (match goal with |- context [worker_resume w cfg ?pc ?s] =>
         pose proof (worker_resume_unique w cfg pc s Hu) as H;
         destruct (worker_resume w cfg pc s) as [st [pc'|e]] end;
       now intros [= <-]).
Qed.

Lemma run_unique w cfg evs m m' :
  unique_keys (serviceMap (shared m)) ->
  run w cfg evs m = Some m' ->
  unique_keys (serviceMap (shared m')).
Proof.
  revert m. induction evs as [|ev rest IH]; intros m Hu; cbn.
  - now intros [= <-].
  - destruct (step w cfg ev m) as [m1|] eqn:Hstep; [|discriminate].
    apply IH. eapply step_unique; eauto.
Qed.

(** X15: the function _worker and the worker coroutine agree.  In a
    state reached from start-up, under any interleaving, in which no pass
    is in progress, a tick followed by the settling of the worker's own
    promises, with nothing else in between, leaves the shared state
    exactly as the function _worker computes it, and the worker idle. *)
Lemma reachable_worker_alone w cfg evs m st' r :
  run w cfg evs boot = Some m ->
  worker m = W_idle ->
  _worker w cfg (shared m) = (st', r) ->
  exists n,
    run w cfg (evs ++ Tick :: replicate n WorkerResumes) boot
    = Some {| shared := st'; discovery := discovery m; worker := W_idle |}.
Proof.
  intros Hrun Hidle Hw.
  assert (unique_keys (serviceMap (shared m))) as Hu
    by (eapply run_unique; [|exact Hrun]; constructor).
  destruct (worker_alone w cfg m st' r Hidle Hu Hw) as [n Hn].
  exists n. revert Hrun Hn. generalize boot as m0. clear.
  generalize (Tick :: replicate n WorkerResumes) as tail.
  induction evs as [|ev rest IH]; intros tail m0; cbn.
  - now intros [= ->].
  - destruct (step w cfg ev m0); [apply IH|discriminate].
Qed.

(* ===================================================================== *)
(* Further properties of the code                                         *)
(* ===================================================================== *)

(* --------------------------------------------------------------------- *)
(* The service list                                                       *)
(* --------------------------------------------------------------------- *)

Lemma join_cons_split piece (s : string) :
  join (piece :: Js.split s) = String.append piece (String Js.comma (join (Js.split s))).
Proof.
  pose proof (split_nonempty s) as Hne. cbn.
  destruct (Js.split s); [contradiction|reflexivity].
Qed.

Lemma join_split (s : string) : join (Js.split s) = s.
Proof.
  induction s as [|c r IH]; [reflexivity|]. cbn [Js.split].
  destruct (Ascii.eqb_spec c Js.comma) as [->|Hc].
  - rewrite join_cons_split, IH. reflexivity.
  - pose proof (split_nonempty r) as Hne.
    destruct (Js.split r) as [|h t] eqn:E; [contradiction|].
    destruct t as [|h' t'].
    + cbn in IH |- *. now rewrite IH.
    + change (join (String c h :: h' :: t'))
        with (String c (join (h :: h' :: t'))).
      now rewrite IH.
Qed.

Lemma split_length (s : string) : length (Js.split s) = S (commas s).
Proof.
  induction s as [|c r IH]; [reflexivity|]. cbn.
  destruct (Ascii.eqb c Js.comma); cbn; [now rewrite IH|].
  pose proof (split_nonempty r) as Hne.
  destruct (Js.split r); [contradiction|]. cbn in IH |- *. exact IH.
Qed.

Lemma split_no_comma (s : string) :
  Forall (fun piece => has_comma piece = false) (Js.split s).
Proof.
  induction s as [|c r IH]; cbn; [repeat constructor|].
  destruct (Ascii.eqb c Js.comma) eqn:Hc; [constructor; [reflexivity|exact IH]|].
  destruct (Js.split r) as [|h t]; [repeat constructor; cbn; now rewrite Hc|].
  apply Forall_cons in IH. destruct IH as [Hh Ht].
  constructor; [cbn; now rewrite Hc, Hh|exact Ht].
Qed.

Lemma lower_ascii_idem (c : ascii) :
  Js.lower_ascii (Js.lower_ascii c) = Js.lower_ascii c.
Proof. destruct c as [[] [] [] [] [] [] [] []]; reflexivity. Qed.

Lemma toLowerCase_idem (s : string) :
  Js.toLowerCase (Js.toLowerCase s) = Js.toLowerCase s.
Proof.
  induction s as [|c r IH]; cbn; [reflexivity|].
  now rewrite lower_ascii_idem, IH.
Qed.

Lemma toLowerCase_commas (s : string) : commas (Js.toLowerCase s) = commas s.
Proof.
  induction s as [|c r IH]; cbn; [reflexivity|].
  now rewrite lower_ascii_comma, IH.
Qed.

(** X1: for a non-empty FF_SERVICES, _getServiceEnv loses nothing but the
    case: the service names joined with commas are the lower-cased value,
    there is one name more than there are commas (empty names between
    adjacent commas included), no name contains a comma and every name is
    in lower case. *)
Theorem getServiceEnv_round_trip (s : string) :
  s <> EmptyString ->
  exists services,
    _getServiceEnv (Some s) = Ok services /\
    join services = Js.toLowerCase s /\
    length services = S (commas s) /\
    Forall (fun name => has_comma name = false) services /\
    Forall (fun name => Js.toLowerCase name = name) services.
Proof.
  intros Hs. exists (Js.split (Js.toLowerCase s)).
  unfold _getServiceEnv. rewrite bool_decide_eq_false_2 by exact Hs.
  split; [reflexivity|]. split; [apply join_split|].
  split; [now rewrite split_length, toLowerCase_commas|].
  split; [apply split_no_comma|].
  rewrite split_toLowerCase. apply Forall_forall. intros name Hin.
  apply list_elem_of_fmap in Hin. destruct Hin as (x & -> & _).
  apply toLowerCase_idem.
Qed.

Lemma getServiceEnv_round_trip_witness :
  exists services,
    _getServiceEnv (Some "Web,,DB,"%string) = Ok services /\
    join services = Js.toLowerCase "Web,,DB,"%string /\
    length services = S (commas "Web,,DB,"%string) /\
    Forall (fun name => has_comma name = false) services /\
    Forall (fun name => Js.toLowerCase name = name) services.
Proof. apply (getServiceEnv_round_trip "Web,,DB,"%string). discriminate. Defined.

(* --------------------------------------------------------------------- *)
(* What _sortContainersByAge returns                                      *)
(* --------------------------------------------------------------------- *)






Lemma inspect_all_eq_collect w containerIds st :
  inspect_all w containerIds st
  = (with_history (history st ++ map Inspect containerIds)
       (fst (collect_inspects w containerIds st)),
     snd (collect_inspects w containerIds st)).
Proof.
  revert st. induction containerIds as [|containerId rest IH]; intros st.
  - cbn. unfold ret. rewrite app_nil_r. now destruct st.
  - cbn [inspect_all collect_inspects]. unfold bind, record, modify, consult.
    rewrite IH.
    pose proof (collect_inspects_state w rest
                  (with_consulted (S (consulted st))
                     (with_history (history st ++ [Inspect containerId]) st))) as H1.
    pose proof (collect_inspects_state w rest
                  (with_consulted (S (consulted st)) st)) as H2.
    assert (snd (collect_inspects w rest
                   (with_consulted (S (consulted st))
                      (with_history (history st ++ [Inspect containerId]) st)))
            = snd (collect_inspects w rest (with_consulted (S (consulted st)) st)))
      as H3.
    { clear. generalize (S (consulted st)) as n.
      induction rest as [|c rest IH]; intros n; [reflexivity|].
      cbn [collect_inspects]. unfold consult. cbn [consulted with_consulted].
      specialize (IH (S n)). cbn [with_consulted with_history consulted] in IH |- *.
      destruct (collect_inspects w rest _) as [sa ra].
      destruct (collect_inspects w rest _) as [sb rb].
      cbn in IH |- *. now rewrite IH. }
    cbn [consulted history with_history with_consulted] in H1, H2, H3 |- *.
    rewrite H1, H3.
    destruct (collect_inspects w rest (with_consulted (S (consulted st)) st))
      as [sb rb].
    cbn [fst snd] in H2 |- *. subst sb.
    unfold with_history, with_consulted. cbn.
    rewrite <- app_assoc. reflexivity.
Qed.

Lemma sort_keeps_ids w containerIds st st' sorted :
  _sortContainersByAge w containerIds st = (st', Ok sorted) ->
  length sorted = length containerIds /\
  (inspect_faithful w -> Permutation containerIds sorted).
Proof.
  unfold _sortContainersByAge. unfold bind at 1.
  rewrite inspect_all_eq_collect.
  destruct (collect_inspects w containerIds st) as [st1 [infos|e]] eqn:Hc;
    cbn [fst snd]; [|discriminate].
  rewrite sort_inspected_eq. intros [= <- <-].
  assert (length infos = length containerIds) as Hlen.
  { clear -Hc. revert st st1 infos Hc.
    induction containerIds as [|c rest IH]; intros st st1 infos.
    - cbn. now intros [= <- <-].
    - cbn [collect_inspects]. unfold consult.
      destruct (collect_inspects w rest _) as [s2 rs] eqn:E.
      destruct (inspect w (consulted st) c); [|discriminate].
      destruct rs as [l|]; [|discriminate].
      intros [= <- <-]. cbn. f_equal. eapply IH. exact E. }
  split.
  - rewrite length_map. rewrite (Permutation_length (sort_perm _ infos)).
    exact Hlen.
  - intros Hw.
    pose proof (collect_inspects_ids w containerIds st infos Hw) as Hids.
    rewrite Hc in Hids. specialize (Hids eq_refl).
    rewrite <- Hids at 1. apply Permutation_map. symmetry. apply sort_perm.
Qed.

(** X3: when its inspections succeed, _sortContainersByAge returns as many
    ids as it was given, and with a daemon that answers each inspection
    with the container asked for, exactly the ids it was given, in some
    order: the sort drops no id and invents none. *)
Theorem sortContainersByAge_permutes w containerIds st st' sorted :
  _sortContainersByAge w containerIds st = (st', Ok sorted) ->
  length sorted = length containerIds /\
  (inspect_faithful w -> Permutation containerIds sorted).
Proof. apply sort_keeps_ids. Qed.

Lemma calm_faithful t0 pace listed :
  inspect_faithful (Sample.calm t0 pace listed).
Proof. intros n [|s] info; cbn; [discriminate|]. now intros [= <-]. Qed.

Lemma sortContainersByAge_permutes_witness :
  length [str "c"; str "a"; str "b"] = length [str "b"; str "a"; str "c"] /\
  Permutation [str "b"; str "a"; str "c"] [str "c"; str "a"; str "b"].
Proof.
  destruct (sortContainersByAge_permutes (Sample.calm 1000 1 [])
              [str "b"; str "a"; str "c"] initial_state
              (fst (_sortContainersByAge (Sample.calm 1000 1 [])
                      [str "b"; str "a"; str "c"] initial_state))
              [str "c"; str "a"; str "b"]) as [Hlen Hperm].
  - vm_compute. reflexivity.
  - split; [exact Hlen|]. apply Hperm, calm_faithful.
Defined.

(* --------------------------------------------------------------------- *)
(* Round robin                                                            *)
(* --------------------------------------------------------------------- *)

Lemma rotations_S n l : rotations (S n) l = snd (rotate (rotations n l)).
Proof. reflexivity. Qed.

Lemma rotations_drop_take (n : nat) (l : list value) :
  (n <= length l)%nat -> rotations n l = drop n l ++ take n l.
Proof.
  induction n as [|n IH]; intros Hn.
  - cbn. now rewrite drop_0, app_nil_r.
  - rewrite rotations_S, IH by lia.
    destruct (lookup_lt_is_Some_2 l n) as [x Hx]; [lia|].
    rewrite (drop_S l x n Hx). cbn [app]. rewrite rotate_cons. cbn [snd].
    rewrite (take_S_r l n x Hx). now rewrite <- app_assoc.
Qed.

(** X4: rotation is round robin.  After n rotations (n at most the number
    of containers) the list is the original with its first n ids moved to
    the back in order; the rotation that follows k earlier ones picks the
    container at position k of the original list; and after as many
    rotations as there are containers the list is the original again. *)
Theorem rotation_round_robin (l : list value) :
  (forall n, (n <= length l)%nat -> rotations n l = drop n l ++ take n l) /\
  (forall k x, l !! k = Some x -> fst (rotate (rotations k l)) = x) /\
  rotations (length l) l = l.
Proof.
  split; [intros n; apply rotations_drop_take|]. split.
  - intros k x Hx.
    assert (k < length l)%nat as Hk by (eapply lookup_lt_Some; eauto).
    rewrite rotations_drop_take by lia.
    now rewrite (drop_S l x k Hx).
  - rewrite rotations_drop_take by lia.
    now rewrite drop_all, firstn_all.
Qed.

Lemma rotation_round_robin_witness :
  rotations 2 [str "x"; str "y"; str "z"] = [str "z"; str "x"; str "y"] /\
  fst (rotate (rotations 2 [str "x"; str "y"; str "z"])) = str "z".
Proof.
  destruct (rotation_round_robin [str "x"; str "y"; str "z"]) as (H1 & H2 & _).
  split.
  - apply (H1 2%nat). cbn. lia.
  - apply (H2 2%nat). reflexivity.
Defined.

(* --------------------------------------------------------------------- *)
(* The worker and the daemon                                              *)
(* --------------------------------------------------------------------- *)


Lemma since_app before after delta :
  history after = history before ++ delta -> since before after = delta.
Proof. intros H. unfold since. rewrite H. apply drop_app_length. Qed.





Lemma good_list_check (l : list value) :
  l <> [] -> bool_decide (NoDup l) = true ->
  forallb (fun x => negb (bool_decide (x = undefined))) l = true ->
  good_list l.
Proof.
  intros Hne Hnd Hall. split; [exact Hne|]. split.
  - eapply bool_decide_eq_true_1. exact Hnd.
  - apply Forall_forall. intros x Hx. apply list_elem_of_In in Hx.
    rewrite forallb_forall in Hall. specialize (Hall x Hx).
    apply negb_true_iff in Hall. eapply bool_decide_eq_false_1. exact Hall.
Qed.

Lemma web_db_good : good_map Sample.web_db.
Proof.
  unfold good_map, Sample.web_db.
  apply Forall_cons. split; [|apply Forall_cons; split; [|apply Forall_nil_2]];
    cbn [snd];
    (apply good_list_check; [discriminate|vm_compute; reflexivity|reflexivity]).
Qed.

(* One turn of the worker's loop that throws, on a well-formed list: the
   daemon refused the stop or the start of the head, after the due time
   was advanced and the list rotated. *)
Lemma worker_service_throws w cfg i rootService containerIds st st' e :
  good_list containerIds ->
  worker_service w cfg i (rootService, containerIds) st = (st', Throw e) ->
  exists n due,
    (stop w n (fst (rotate containerIds)) = Throw e \/
     start w n (fst (rotate containerIds)) = Throw e) /\
    In (Stop (fst (rotate containerIds))) (since st st') /\
    map_get (serviceMap st') rootService = Some (snd (rotate containerIds)) /\
    serviceIntervals st' !! rootService = Some due /\
    due = clock w (S (consulted st)) + rolloverInterval cfg
          + serviceRerollDistance cfg * Z.of_nat i /\
    _workerMutex st' = _workerMutex st.
Proof.
  intros Hg. destruct (good_list_head _ Hg) as (s & tail & -> & Hrot).
  unfold worker_service. run_monad.
  destruct (is_due _ _); [|discriminate].
  rewrite Hrot. run_monad. cbn [_containerIdDisplay fst snd].
  destruct (stop w _ (str s)) eqn:Hstop.
  - destruct (start w _ (str s)) eqn:Hstart; [discriminate|].
    intros [= <- <-]. eexists. eexists. split; [right; exact Hstart|].
    unfold since. cbn. rewrite <- !app_assoc, drop_app_length.
    split; [cbn; auto|]. split; [apply map_get_set_eq|].
    split; [apply lookup_insert_eq|]. split; reflexivity.
  - intros [= <- <-]. eexists. eexists. split; [left; exact Hstop|].
    unfold since. cbn. rewrite <- !app_assoc, drop_app_length.
    split; [cbn; auto|]. split; [apply map_get_set_eq|].
    split; [apply lookup_insert_eq|]. split; reflexivity.
Qed.

(** X6: with well-formed lists in the Registry, the only exceptions that
    can end a worker pass are refusals of the daemon: the message is that
    of a stop or start call the pass made, for the head of the list of a
    service of the Registry. *)
Theorem worker_pass_fails_only_on_daemon w cfg st st' e :
  good_map (serviceMap st) ->
  _worker w cfg st = (st', Throw e) ->
  exists n rootService containerIds,
    In (rootService, containerIds) (serviceMap st) /\
    (stop w n (fst (rotate containerIds)) = Throw e \/
     start w n (fst (rotate containerIds)) = Throw e) /\
    In (Stop (fst (rotate containerIds))) (history st').
Proof.
  intros Hg. rewrite worker_eq. destruct (_workerMutex st); [discriminate|].
  destruct (for_of _ _ _ _) as [st1 [i1|e1]] eqn:Hloop; [discriminate|].
  intros [= <- <-]. revert Hloop.
  generalize (with_workerMutex true st) as s0. generalize 0%nat as i.
  unfold good_map in Hg. induction Hg as [|[k ids] rest Hk Hrest IH]; intros i s0.
  - discriminate.
  - rewrite for_of_cons.
    destruct (worker_service w cfg i (k, ids) s0) as [s1 [i1|e']] eqn:Hb.
    + intros Hloop. destruct (IH _ _ Hloop) as (n & k' & ids' & Hin & Hcall & Hh).
      exists n, k', ids'. cbn. auto.
    + intros [= <- <-]. cbn in Hk.
      destruct (worker_service_throws _ _ _ _ _ _ _ _ Hk Hb)
        as (n & due & Hcall & Hin & _).
      exists n, k, ids. split; [cbn; auto|]. split; [exact Hcall|].
      unfold since in Hin. apply list_elem_of_In in Hin.
      apply list_elem_of_In. eapply subseteq_drop. exact Hin.
Qed.

Lemma worker_pass_fails_only_on_daemon_witness :
  exists n rootService containerIds,
    In (rootService, containerIds) (serviceMap (Sample.registry Sample.web_db 0)) /\
    (stop (Sample.stop_fails 1000 1 []) n (fst (rotate containerIds))
     = Throw "cannot stop container"%string \/
     start (Sample.stop_fails 1000 1 []) n (fst (rotate containerIds))
     = Throw "cannot stop container"%string) /\
    In (Stop (fst (rotate containerIds)))
       (history (fst (_worker (Sample.stop_fails 1000 1 []) Sample.cfg
                        (Sample.registry Sample.web_db 0)))).
Proof.
  apply (worker_pass_fails_only_on_daemon (Sample.stop_fails 1000 1 [])
           Sample.cfg (Sample.registry Sample.web_db 0)).
  - exact web_db_good.
  - vm_compute. reflexivity.
Defined.



(* --------------------------------------------------------------------- *)
(* The candidate map built from a listing                                 *)
(* --------------------------------------------------------------------- *)

Lemma push_new_elem acc l x :
  x ∈ fold_left push_new l acc <-> x ∈ acc \/ x ∈ l.
Proof.
  revert acc. induction l as [|y l IH]; intros acc; cbn.
  - split; [auto|]. intros [H|H]; [exact H|]. now apply elem_of_nil in H.
  - rewrite IH. unfold push_new, Js.includes, Js.push.
    case_bool_decide as Hy; split.
    + intros [H|H]; [left; exact H|right; apply elem_of_cons; right; exact H].
    + intros [H|H]; [left; exact H|].
      apply elem_of_cons in H. destruct H as [->|H];
        [left; exact Hy|right; exact H].
    + intros [H|H]; [|right; apply elem_of_cons; right; exact H].
      apply elem_of_app in H. destruct H as [H|H]; [left; exact H|].
      apply list_elem_of_singleton in H. subst. right. apply elem_of_cons. auto.
    + intros [H|H]; [left; apply elem_of_app; left; exact H|].
      apply elem_of_cons in H. destruct H as [->|H]; [|right; exact H].
      left. apply elem_of_app. right. now apply list_elem_of_singleton.
Qed.

Lemma push_new_nodup acc l :
  NoDup acc -> NoDup (fold_left push_new l acc).
Proof.
  revert acc. induction l as [|y l IH]; intros acc Hacc; cbn; [exact Hacc|].
  apply IH. unfold push_new, Js.includes, Js.push.
  case_bool_decide as Hy; [exact Hacc|].
  apply NoDup_app. split; [exact Hacc|]. split; [|apply NoDup_singleton].
  intros x Hx Hx'. apply list_elem_of_singleton in Hx'. now subst.
Qed.

Lemma push_new_all_new acc l :
  NoDup (acc ++ l) -> fold_left push_new l acc = acc ++ l.
Proof.
  revert acc. induction l as [|y l IH]; intros acc Hnd; cbn.
  - now rewrite app_nil_r.
  - assert (y ∉ acc) as Hy.
    { apply NoDup_app in Hnd. destruct Hnd as (_ & Hdisj & _).
      intros Hin. apply (Hdisj y Hin). apply elem_of_cons. auto. }
    unfold push_new at 2. unfold Js.includes, Js.push.
    rewrite bool_decide_eq_false_2 by exact Hy.
    rewrite IH; [now rewrite <- app_assoc|]. now rewrite <- app_assoc.
Qed.

(* The entry of one service after one more container of the listing. *)
Lemma populate_step_get qualifiedServices m c rootService :
  map_get (populate_step qualifiedServices m c) rootService
  = if labelled rootService c && bool_decide (rootService ∈ qualifiedServices)
    then Some (push_new (default [] (map_get m rootService)) (str (Id c)))
    else map_get m rootService.
Proof.
  unfold populate_step, labelled.
  destruct (Labels c !! compose_label) as [raw|]; [|reflexivity].
  destruct (bool_decide (raw = EmptyString)); cbn [negb andb]; [reflexivity|].
  destruct (decide (Js.toLowerCase raw = rootService)) as [<-|Hk].
  - rewrite (bool_decide_eq_true_2 (Js.toLowerCase raw = Js.toLowerCase raw))
      by reflexivity.
    destruct (bool_decide _); cbn [andb]; [|reflexivity].
    now rewrite map_get_set_eq.
  - rewrite (bool_decide_eq_false_2 (Js.toLowerCase raw = rootService))
      by exact Hk.
    cbn [andb]. destruct (bool_decide _); [|reflexivity].
    now rewrite map_get_set_ne by exact Hk.
Qed.

(* The entry of one service after the listing was gone through, from any
   map to start with. *)
Lemma populate_fold qualifiedServices containers rootService :
  forall m,
    map_get (fold_left (populate_step qualifiedServices) containers m) rootService
    = if bool_decide (rootService ∈ qualifiedServices) then
        match listed_for rootService containers with
        | [] => map_get m rootService
        | ids => Some (fold_left push_new ids (default [] (map_get m rootService)))
        end
      else map_get m rootService.
Proof.
  induction containers as [|c rest IH]; intros m.
  - cbn. now destruct (bool_decide _).
  - cbn [fold_left]. rewrite IH, populate_step_get.
    unfold listed_for. cbn [List.filter].
    destruct (bool_decide (rootService ∈ qualifiedServices));
      destruct (labelled rootService c); cbn [andb map default fold_left];
      try reflexivity.
    now destruct (map _ (List.filter _ rest)).
Qed.

Lemma listed_for_elem rootService containers x :
  x ∈ listed_for rootService containers <->
  exists c, In c containers /\ labelled rootService c = true /\ x = str (Id c).
Proof.
  unfold listed_for. rewrite list_elem_of_fmap. split.
  - intros (c & -> & Hc). apply list_elem_of_In, filter_In in Hc.
    destruct Hc as [Hin Hl]. eauto.
  - intros (c & Hin & Hl & ->). exists c. split; [reflexivity|].
    apply list_elem_of_In, filter_In. auto.
Qed.

Lemma listed_for_nodup rootService containers :
  NoDup (map Id containers) -> NoDup (listed_for rootService containers).
Proof.
  unfold listed_for. induction containers as [|c rest IH]; cbn; intros Hnd.
  - constructor.
  - apply NoDup_cons in Hnd. destruct Hnd as [Hc Hnd].
    destruct (labelled rootService c); [|auto]. cbn. apply NoDup_cons.
    split; [|auto]. intros Hin. apply Hc.
    apply list_elem_of_fmap in Hin. destruct Hin as (c' & [= Hid] & Hc').
    apply list_elem_of_fmap. exists c'. split; [exact Hid|].
    apply list_elem_of_In, filter_In in Hc'. apply list_elem_of_In. tauto.
Qed.

(** X8: the candidate map that _updateMemory builds from a listing groups
    the containers by their compose service label, compared without case,
    and keeps only the configured services.  A service gets an entry
    exactly when it is configured and some listed container carries its
    label (non-empty); the entry then holds exactly the ids of those
    containers, each once; and when the listing names no container twice
    they are in listing order. *)
Theorem populate_groups_by_label qualifiedServices containers rootService :
  (rootService ∉ qualifiedServices ->
   map_get (populate qualifiedServices containers) rootService = None) /\
  ((forall c, In c containers -> labelled rootService c = false) ->
   map_get (populate qualifiedServices containers) rootService = None) /\
  (rootService ∈ qualifiedServices ->
   (exists c, In c containers /\ labelled rootService c = true) ->
   exists ids,
     map_get (populate qualifiedServices containers) rootService = Some ids /\
     NoDup ids /\
     (forall x, In x ids <->
        exists c, In c containers /\ labelled rootService c = true /\
                  x = str (Id c)) /\
     (NoDup (map Id containers) -> ids = listed_for rootService containers)).
Proof.
  unfold populate. rewrite populate_fold. cbn [map_get default].
  split; [|split].
  - intros Hq. now rewrite bool_decide_eq_false_2 by exact Hq.
  - intros Hnone. destruct (bool_decide _); [|reflexivity].
    destruct (listed_for rootService containers) as [|x l] eqn:E; [reflexivity|].
    assert (x ∈ listed_for rootService containers) as Hx
      by (rewrite E; apply elem_of_cons; auto).
    apply listed_for_elem in Hx. destruct Hx as (c & Hin & Hl & _).
    rewrite (Hnone c Hin) in Hl. discriminate.
  - intros Hq (c & Hin & Hl). rewrite bool_decide_eq_true_2 by exact Hq.
    destruct (listed_for rootService containers) as [|x l] eqn:E.
    + assert (str (Id c) ∈ listed_for rootService containers) as Hx
        by (apply listed_for_elem; eauto).
      rewrite E in Hx. now apply elem_of_nil in Hx.
    + eexists. split; [reflexivity|]. rewrite <- E. split; [|split].
      * apply push_new_nodup. constructor.
      * intros y. rewrite <- list_elem_of_In, push_new_elem, listed_for_elem.
        split; [intros [H|H]; [now apply elem_of_nil in H|exact H]|auto].
      * intros Hnd. apply (push_new_all_new [] (listed_for rootService containers)).
        cbn. now apply listed_for_nodup.
Qed.

Lemma populate_groups_by_label_witness :
  exists ids,
    map_get (populate ["web"; "db"]%string
               [Sample.container "a" "Web"; Sample.container "z" "db";
                Sample.container "b" "WEB"; Sample.container "q" "other"])
            "web"
    = Some ids /\
    NoDup ids /\
    (forall x, In x ids <->
       exists c,
         In c [Sample.container "a" "Web"; Sample.container "z" "db";
               Sample.container "b" "WEB"; Sample.container "q" "other"] /\
         labelled "web" c = true /\ x = str (Id c)) /\
    (NoDup (map Id [Sample.container "a" "Web"; Sample.container "z" "db";
                    Sample.container "b" "WEB"; Sample.container "q" "other"]) ->
     ids = listed_for "web"
             [Sample.container "a" "Web"; Sample.container "z" "db";
              Sample.container "b" "WEB"; Sample.container "q" "other"]).
Proof.
  apply (proj2 (proj2 (populate_groups_by_label ["web"; "db"]%string
           [Sample.container "a" "Web"; Sample.container "z" "db";
            Sample.container "b" "WEB"; Sample.container "q" "other"] "web"))).
  - apply elem_of_cons. auto.
  - exists (Sample.container "a" "Web"). split; [cbn; auto|].
    vm_compute. reflexivity.
Defined.

(* --------------------------------------------------------------------- *)
(* What discovery does to the Registry                                    *)
(* --------------------------------------------------------------------- *)

Lemma map_get_in {V} (m : list (string * V)) k v :
  NoDup (map fst m) -> In (k, v) m -> map_get m k = Some v.
Proof.
  induction m as [|[k' v'] m IH]; cbn; [contradiction|].
  intros Hnd Hin. apply NoDup_cons in Hnd. destruct Hnd as [Hk' Hnd].
  destruct Hin as [[= -> ->]|Hin]; [now rewrite bool_decide_eq_true_2|].
  rewrite bool_decide_eq_false_2; [auto|].
  intros ->. apply Hk'. apply list_elem_of_fmap. exists (k, v).
  split; [reflexivity|]. now apply list_elem_of_In.
Qed.

Lemma same_members_refl m : same_members m m.
Proof. split; [reflexivity|]. intros k ids H. eauto. Qed.

Lemma same_members_set m0 m k ids sorted :
  same_members m0 m -> map_get m0 k = Some ids -> Permutation ids sorted ->
  same_members m0 (map_set m k sorted).
Proof.
  intros [Hkeys Hids] Hk Hperm. split.
  - rewrite map_set_keys; [exact Hkeys|].
    destruct (Hids k ids Hk) as (ids' & -> & _). discriminate.
  - intros k' ids0 Hk'. destruct (decide (k = k')) as [<-|Hne].
    + rewrite map_get_set_eq. rewrite Hk in Hk'. injection Hk' as <-. eauto.
    + rewrite map_get_set_ne by exact Hne. auto.
Qed.

Lemma remap_remaps w cfg i rootService containerIds st st' r :
  inspect_faithful w ->
  (let! _ := _updateServiceMapping w cfg i rootService containerIds in ret (S i)) st
  = (st', r) ->
  _workerMutex st' = _workerMutex st /\
  ((serviceMap st' = serviceMap st /\
    serviceIntervals st' = serviceIntervals st /\
    (r = Ok i \/ exists e, r = Throw e)) \/
   (exists sorted due,
      Permutation containerIds sorted /\
      serviceMap st' = map_set (serviceMap st) rootService sorted /\
      serviceIntervals st' = <[rootService := due]> (serviceIntervals st) /\
      r = Ok (S i))).
Proof.
  intros Hw. unfold bind, ret.
  destruct (_updateServiceMapping w cfg i rootService containerIds st)
    as [st1 [[]|e]] eqn:Hrun; intros [= <- <-].
  - destruct (updateServiceMapping_ok _ _ _ _ _ _ _ Hrun)
      as (st0 & sorted & Hsort & Hm & Hmap & Hiv & _).
    split; [exact Hm|]. right. eexists. eexists.
    split; [apply (sort_keeps_ids _ _ _ _ _ Hsort), Hw|].
    split; [exact Hmap|]. split; [exact Hiv|reflexivity].
  - destruct (updateServiceMapping_throw _ _ _ _ _ _ _ _ Hrun)
      as (Hm & Hmap & Hiv & _).
    split; [exact Hm|]. left. eauto.
Qed.

Lemma first_run_body_remaps w cfg :
  inspect_faithful w -> remaps w (first_run_body w cfg).
Proof.
  intros Hw i k ids st st' r. unfold first_run_body. now apply remap_remaps.
Qed.

Lemma drift_body_remaps w cfg candidate :
  inspect_faithful w -> remaps w (drift_body w cfg candidate).
Proof.
  intros Hw i k ids st st' r. unfold drift_body.
  assert (ret i st = (st', r) ->
          _workerMutex st' = _workerMutex st /\
          ((serviceMap st' = serviceMap st /\
            serviceIntervals st' = serviceIntervals st /\
            (r = Ok i \/ exists e, r = Throw e)) \/
           (exists sorted due,
              Permutation ids sorted /\
              serviceMap st' = map_set (serviceMap st) k sorted /\
              serviceIntervals st' = <[k := due]> (serviceIntervals st) /\
              r = Ok (S i)))) as Hskip.
  { unfold ret. intros [= <- <-]. split; [reflexivity|]. left. auto. }
  destruct (map_get candidate k) as [newContainerIds|]; [|exact Hskip].
  destruct (idsDiffer ids newContainerIds); [|exact Hskip].
  now apply remap_remaps.
Qed.

(* A discovery loop over entries of m0 keeps the services and the ids of
   m0, keeps the flag, keeps every due time defined; and when it acted on
   every entry, every entry has a due time. *)
Lemma remap_loop w (body : nat -> string * list value -> M nat) m0 :
  remaps w body -> unique_keys m0 ->
  forall entries i st st' r,
    (forall e, In e entries -> In e m0) ->
    same_members m0 (serviceMap st) ->
    for_of body entries i st = (st', r) ->
    same_members m0 (serviceMap st') /\
    _workerMutex st' = _workerMutex st /\
    (forall k, is_Some (serviceIntervals st !! k) ->
               is_Some (serviceIntervals st' !! k)) /\
    (forall i', r = Ok i' ->
       (i' <= i + length entries)%nat /\
       (i' = (i + length entries)%nat ->
        forall e, In e entries -> is_Some (serviceIntervals st' !! fst e))).
Proof.
  intros Hbody Hu. induction entries as [|[k ids] rest IH];
    intros i st st' r Hsub Hsame.
  - cbn. unfold ret. intros [= <- <-].
    split; [exact Hsame|]. split; [reflexivity|]. split; [auto|].
    intros i' [= <-]. split; [lia|]. intros _ e [].
  - rewrite for_of_cons.
    destruct (body i (k, ids) st) as [st1 r1] eqn:Hb.
    destruct (Hbody _ _ _ _ _ _ Hb) as [Hm1 Hcase].
    assert (map_get m0 k = Some ids) as Hk
      by (apply map_get_in; [exact Hu|apply Hsub; cbn; auto]).
    assert (forall e, In e rest -> In e m0) as Hsub'
      by (intros e He; apply Hsub; cbn; auto).
    destruct Hcase as [(Hmap & Hiv & Hr)|(sorted & due & Hperm & Hmap & Hiv & ->)].
    + destruct Hr as [->|[e ->]].
      * intros Hrest.
        destruct (IH i st1 st' r Hsub') as (H1 & H2 & H3 & H4);
          [now rewrite Hmap|exact Hrest|].
        split; [exact H1|]. split; [congruence|].
        split; [intros k' Hk'; apply H3; now rewrite Hiv|].
        intros i' Hr'. destruct (H4 i' Hr') as [Hle _]. cbn [length].
        split; [lia|]. intros Heq. lia.
      * intros [= <- <-]. rewrite Hmap, Hiv.
        split; [exact Hsame|]. split; [exact Hm1|]. split; [auto|].
        discriminate.
    + intros Hrest.
      destruct (IH (S i) st1 st' r Hsub') as (H1 & H2 & H3 & H4);
        [rewrite Hmap; eapply same_members_set; eauto|exact Hrest|].
      split; [exact H1|]. split; [congruence|].
      assert (forall k', is_Some (serviceIntervals st !! k') ->
                         is_Some (serviceIntervals st1 !! k')) as Hkeep.
      { intros k' Hk'. rewrite Hiv. destruct (decide (k = k')) as [<-|Hne];
          [rewrite lookup_insert_eq; eauto|now rewrite lookup_insert_ne]. }
      split; [intros k' Hk'; apply H3, Hkeep, Hk'|].
      intros i' Hr'. destruct (H4 i' Hr') as [Hle Hall]. cbn [length].
      split; [lia|]. intros Heq e [<-|He].
      * cbn. apply H3. rewrite Hiv, lookup_insert_eq. eauto.
      * apply Hall; [lia|exact He].
Qed.

Lemma updateMemory_iteration_eq w cfg st :
  _updateMemory_iteration w cfg st
  = if _workerMutex st then (st, Ok Waited)
    else
      let st1 := with_consulted (S (consulted st))
                   (with_history (history st ++ [ListContainers]) st) in
      match listContainers w (consulted st) with
      | Throw e => (st1, Throw e)
      | Ok containers =>
          let candidate := populate (services cfg) containers in
          if bool_decide (length (serviceMap st) = 0%nat) then
            match for_of (first_run_body w cfg) candidate 0
                    (with_serviceMap candidate st1) with
            | (st', Ok _) => (st', Ok Continued)
            | (st', Throw e) => (st', Throw e)
            end
          else
            match for_of (drift_body w cfg candidate) (serviceMap st) 0 st1 with
            | (st', Ok _) => (st', Ok Slept)
            | (st', Throw e) => (st', Throw e)
            end
      end.
Proof.
  unfold _updateMemory_iteration. unfold bind at 1. unfold get at 1.
  destruct (_workerMutex st); [reflexivity|].
  unfold bind at 1. unfold docker_listContainers, bind, record, modify, consult.
  cbn [consulted history with_history with_consulted].
  destruct (listContainers w (consulted st)) as [containers|e]; [|reflexivity].
  unfold get. cbn [serviceMap with_consulted with_history].
  case_bool_decide as Hsize.
  - destruct (for_of _ _ _ _) as [s [i|e]]; reflexivity.
  - destruct (for_of _ _ _ _) as [s [i|e]]; reflexivity.
Qed.

(** X9: once the Registry holds a service, a turn of the discovery loop
    never adds or drops a service or a container id, whatever the daemon
    lists and however the turn ends: afterwards the Registry has the same
    services in the same order, each with the same ids up to order; the
    busy flag is untouched and no due time is removed.  (The daemon is
    taken to answer each inspection with the container asked for.) *)
Theorem discovery_keeps_members w cfg st st' r :
  inspect_faithful w ->
  unique_keys (serviceMap st) ->
  serviceMap st <> [] ->
  _updateMemory_iteration w cfg st = (st', r) ->
  same_members (serviceMap st) (serviceMap st') /\
  _workerMutex st' = _workerMutex st /\
  (forall k, is_Some (serviceIntervals st !! k) ->
             is_Some (serviceIntervals st' !! k)).
Proof.
  intros Hw Hu Hne. rewrite updateMemory_iteration_eq.
  destruct (_workerMutex st) eqn:Hm.
  - intros [= <- <-]. split; [apply same_members_refl|]. auto.
  - cbv zeta. destruct (listContainers w (consulted st)) as [containers|e].
    + rewrite bool_decide_eq_false_2
        by (destruct (serviceMap st); [congruence|discriminate]).
      destruct (for_of _ _ _ _) as [s1 r1] eqn:Hloop.
      assert (same_members (serviceMap st)
                (serviceMap (with_consulted (S (consulted st))
                   (with_history (history st ++ [ListContainers]) st)))) as Hs
        by apply same_members_refl.
      destruct (remap_loop w _ (serviceMap st)
                  (drift_body_remaps w cfg _ Hw) Hu _ _ _ _ _
                  (fun e He => He) Hs Hloop)
        as (H1 & H2 & H3 & _).
      cbn in H2, H3.
      destruct r1; intros [= <- <-];
        (split; [exact H1|]; split; [congruence|exact H3]).
    + intros [= <- <-]. split; [apply same_members_refl|]. auto.
Qed.

Lemma discovery_keeps_members_witness :
  same_members
    (serviceMap (Sample.registry [("web"%string, [str "a"; str "b"])] 0))
    (serviceMap
       (fst (_updateMemory_iteration
               (Sample.calm 1000 1
                  [Sample.container "a" "web"; Sample.container "c" "web"])
               Sample.cfg
               (Sample.registry [("web"%string, [str "a"; str "b"])] 0)))) /\
  _workerMutex
    (fst (_updateMemory_iteration
            (Sample.calm 1000 1
               [Sample.container "a" "web"; Sample.container "c" "web"])
            Sample.cfg
            (Sample.registry [("web"%string, [str "a"; str "b"])] 0)))
  = _workerMutex (Sample.registry [("web"%string, [str "a"; str "b"])] 0) /\
  (forall k,
     is_Some (serviceIntervals
                (Sample.registry [("web"%string, [str "a"; str "b"])] 0) !! k) ->
     is_Some (serviceIntervals
                (fst (_updateMemory_iteration
                        (Sample.calm 1000 1
                           [Sample.container "a" "web"; Sample.container "c" "web"])
                        Sample.cfg
                        (Sample.registry [("web"%string, [str "a"; str "b"])] 0)))
              !! k)).
Proof.
  apply (discovery_keeps_members
           (Sample.calm 1000 1
              [Sample.container "a" "web"; Sample.container "c" "web"])
           Sample.cfg
           (Sample.registry [("web"%string, [str "a"; str "b"])] 0) _ (Ok Slept)).
  - apply calm_faithful.
  - cbn. apply NoDup_singleton.
  - discriminate.
  - vm_compute. reflexivity.
Defined.

Lemma idsDiffer_false containerIds newContainerIds :
  idsDiffer containerIds newContainerIds = false <->
  forall x, In x newContainerIds -> In x containerIds.
Proof.
  unfold idsDiffer, Js.some, Js.includes. split.
  - intros H x Hx. destruct (decide (x ∈ containerIds)) as [Hin|Hin];
      [now apply list_elem_of_In|].
    exfalso. assert (existsb (fun c => negb (bool_decide (c ∈ containerIds)))
                       newContainerIds = true) as Ht; [|congruence].
    apply existsb_exists. exists x. split; [exact Hx|].
    now rewrite bool_decide_eq_false_2.
  - intros H. apply not_true_is_false. intros Ht.
    apply existsb_exists in Ht. destruct Ht as (x & Hx & Hn).
    apply negb_true_iff, bool_decide_eq_false_1 in Hn.
    apply Hn, list_elem_of_In, H, Hx.
Qed.

Lemma drift_loop_idle w cfg candidate entries i st :
  (forall k ids new,
     In (k, ids) entries -> map_get candidate k = Some new ->
     forall x, In x new -> In x ids) ->
  for_of (drift_body w cfg candidate) entries i st = (st, Ok i).
Proof.
  induction entries as [|[k ids] rest IH]; intros Hsub; [reflexivity|].
  rewrite for_of_cons. unfold drift_body at 1.
  destruct (map_get candidate k) as [new|] eqn:Hc.
  - assert (idsDiffer ids new = false) as ->
      by (apply idsDiffer_false; apply (Hsub k ids new); cbn; auto).
    unfold ret. apply IH. intros k' ids' new' Hin. apply Hsub. cbn. auto.
  - unfold ret. apply IH. intros k' ids' new' Hin. apply Hsub. cbn. auto.
Qed.

(** X10: a listing that brings no id the Registry does not already hold
    for that service is no drift, so containers that have gone and
    services that are no longer listed go unnoticed: the turn of the
    discovery loop only lists the containers; it inspects nothing and
    leaves every list and every due time as it was. *)
Theorem no_new_id_no_remap w cfg st containers :
  _workerMutex st = false ->
  serviceMap st <> [] ->
  listContainers w (consulted st) = Ok containers ->
  (forall k ids new,
     In (k, ids) (serviceMap st) ->
     map_get (populate (services cfg) containers) k = Some new ->
     forall x, In x new -> In x ids) ->
  exists st',
    _updateMemory_iteration w cfg st = (st', Ok Slept) /\
    serviceMap st' = serviceMap st /\
    serviceIntervals st' = serviceIntervals st /\
    since st st' = [ListContainers].
Proof.
  intros Hm Hne Hlist Hsub. rewrite updateMemory_iteration_eq, Hm, Hlist.
  cbv zeta.
  rewrite bool_decide_eq_false_2
    by (destruct (serviceMap st); [congruence|discriminate]).
  rewrite drift_loop_idle by exact Hsub.
  eexists. split; [reflexivity|]. cbn. unfold since. cbn.
  now rewrite drop_app_length.
Qed.

Lemma no_new_id_no_remap_witness :
  exists st',
    _updateMemory_iteration (Sample.calm 1000 1 [Sample.container "a" "web"])
      Sample.cfg (Sample.registry Sample.web_db 0) = (st', Ok Slept) /\
    serviceMap st' = serviceMap (Sample.registry Sample.web_db 0) /\
    serviceIntervals st' = serviceIntervals (Sample.registry Sample.web_db 0) /\
    since (Sample.registry Sample.web_db 0) st' = [ListContainers].
Proof.
  apply (no_new_id_no_remap (Sample.calm 1000 1 [Sample.container "a" "web"])
           Sample.cfg (Sample.registry Sample.web_db 0)
           [Sample.container "a" "web"]).
  - reflexivity.
  - discriminate.
  - reflexivity.
  - intros k ids new Hin Hget x Hx.
    destruct Hin as [[= <- <-]|[[= <- <-]|[]]].
    + vm_compute in Hget. injection Hget as <-.
      destruct Hx as [<-|[]]. cbn. auto.
    + vm_compute in Hget. discriminate.
Defined.

Lemma first_run_loop_index w cfg entries :
  forall i st st' i',
    for_of (first_run_body w cfg) entries i st = (st', Ok i') ->
    i' = (i + length entries)%nat.
Proof.
  induction entries as [|[k ids] rest IH]; intros i st st' i'.
  - cbn. unfold ret. intros [= <- <-]. lia.
  - rewrite for_of_cons. unfold first_run_body at 1. unfold bind, ret.
    destruct (_updateServiceMapping w cfg i k ids st) as [s1 [[]|e]];
      [|discriminate].
    intros Hrest. rewrite (IH _ _ _ _ Hrest). cbn. lia.
Qed.

(** X11: the first population that goes through seeds the whole
    Registry.  From an empty Registry, when the listing and every
    inspection succeed, the Registry afterwards has exactly the services
    of the candidate map built from the listing, in its order, each with
    the candidate's ids up to order, and every one of them has a due
    time.  (The daemon is taken to answer each inspection with the
    container asked for.) *)
Theorem first_population_seeds w cfg st st' containers :
  inspect_faithful w ->
  _workerMutex st = false ->
  serviceMap st = [] ->
  listContainers w (consulted st) = Ok containers ->
  _updateMemory_iteration w cfg st = (st', Ok Continued) ->
  same_members (populate (services cfg) containers) (serviceMap st') /\
  (forall k ids,
     In (k, ids) (populate (services cfg) containers) ->
     is_Some (serviceIntervals st' !! k)) /\
  _workerMutex st' = false.
Proof.
  intros Hw Hm Hempty Hlist. rewrite updateMemory_iteration_eq, Hm, Hlist.
  cbv zeta. rewrite Hempty. cbn [length].
  rewrite bool_decide_eq_true_2 by reflexivity.
  destruct (for_of _ _ _ _) as [s1 [i1|e]] eqn:Hloop; [|discriminate].
  intros [= <-].
  pose proof (first_run_loop_index _ _ _ _ _ _ _ Hloop) as Hi.
  assert (same_members (populate (services cfg) containers)
            (serviceMap
               (with_serviceMap (populate (services cfg) containers)
                  (with_consulted (S (consulted st))
                     (with_history (history st ++ [ListContainers]) st)))))
    as Hs by apply same_members_refl.
  destruct (remap_loop w _ (populate (services cfg) containers)
              (first_run_body_remaps w cfg Hw) (populate_unique _ _)
              _ _ _ _ _ (fun e He => He) Hs Hloop)
    as (H1 & H2 & _ & H4).
  split; [exact H1|]. split; [|cbn in H2; congruence].
  intros k ids Hin. destruct (H4 i1 eq_refl) as [_ Hall].
  apply (Hall Hi (k, ids) Hin).
Qed.

Lemma first_population_seeds_witness :
  same_members
    (populate (services Sample.cfg)
       [Sample.container "a" "Web"; Sample.container "x" "db";
        Sample.container "b" "web"])
    (serviceMap
       (fst (_updateMemory_iteration
               (Sample.calm 1000 1
                  [Sample.container "a" "Web"; Sample.container "x" "db";
                   Sample.container "b" "web"])
               Sample.cfg initial_state))) /\
  (forall k ids,
     In (k, ids)
        (populate (services Sample.cfg)
           [Sample.container "a" "Web"; Sample.container "x" "db";
            Sample.container "b" "web"]) ->
     is_Some
       (serviceIntervals
          (fst (_updateMemory_iteration
                  (Sample.calm 1000 1
                     [Sample.container "a" "Web"; Sample.container "x" "db";
                      Sample.container "b" "web"])
                  Sample.cfg initial_state)) !! k)) /\
  _workerMutex
    (fst (_updateMemory_iteration
            (Sample.calm 1000 1
               [Sample.container "a" "Web"; Sample.container "x" "db";
                Sample.container "b" "web"])
            Sample.cfg initial_state)) = false.
Proof.
  apply (first_population_seeds
           (Sample.calm 1000 1
              [Sample.container "a" "Web"; Sample.container "x" "db";
               Sample.container "b" "web"])
           Sample.cfg initial_state _
           [Sample.container "a" "Web"; Sample.container "x" "db";
            Sample.container "b" "web"]).
  - apply calm_faithful.
  - reflexivity.
  - reflexivity.
  - reflexivity.
  - vm_compute. reflexivity.
Defined.

(* --------------------------------------------------------------------- *)
(* The busy flag on the event loop                                        *)
(* --------------------------------------------------------------------- *)

Lemma worker_select_mutex w cfg i service st :
  _workerMutex (fst (worker_select w cfg i service st)) = _workerMutex st.
Proof.
  destruct service as [rootService containerIds].
  unfold worker_select. run_monad. destruct (is_due _ _); [|reflexivity].
  destruct (rotate containerIds) as [containerId rotated]. run_monad.
  destruct (_containerIdDisplay containerId); reflexivity.
Qed.

(* A scan that ends at a yield still holds the flag. *)
Lemma worker_scan_flag w cfg entries pos i st :
  _workerMutex st = true ->
  match worker_scan w cfg entries pos i st with
  | (st', Ok W_idle) => True
  | (st', Ok _) => _workerMutex st' = true
  | (st', Throw _) => True
  end.
Proof.
  revert pos st. induction entries as [|[rootService containerIds] rest IH];
    intros pos st Hm; [exact I|].
  rewrite worker_scan_cons.
  pose proof (worker_select_mutex w cfg i (rootService, containerIds) st) as Hs.
  destruct (worker_select w cfg i (rootService, containerIds) st)
    as [st1 [[[containerId rotated]|]|e]]; cbn in Hs.
  - cbn. congruence.
  - apply IH. congruence.
  - exact I.
Qed.

Lemma discovery_head_mutex st :
  _workerMutex (fst (discovery_head st)) = _workerMutex st.
Proof.
  unfold discovery_head. run_monad.
  destruct (_workerMutex st) eqn:E; cbn; now rewrite ?E.
Qed.

Lemma discovery_scan_mutex first_run candidate entries pos i st :
  _workerMutex (fst (discovery_scan first_run candidate entries pos i st))
  = _workerMutex st.
Proof.
  revert pos. induction entries as [|[rootService containerIds] rest IH];
    intros pos; cbn [discovery_scan].
  - destruct first_run; [apply discovery_head_mutex|reflexivity].
  - destruct first_run; [reflexivity|].
    destruct (map_get candidate rootService) as [newContainerIds|]; [|apply IH].
    destruct (idsDiffer containerIds newContainerIds); [reflexivity|apply IH].
Qed.

(* Discovery never writes the flag. *)
Lemma discovery_resume_mutex w cfg pc st :
  _workerMutex (fst (discovery_resume w cfg pc st)) = _workerMutex st.
Proof.
  destruct pc as [| |first_run candidate pos i k ids|e]; cbn [discovery_resume].
  - apply discovery_head_mutex.
  - unfold bind at 1. unfold consult.
    destruct (listContainers w (consulted st)) as [containers|e]; [|reflexivity].
    unfold bind at 1. unfold get. cbn [serviceMap with_consulted].
    case_bool_decide as Hsize.
    + unfold bind, modify. now rewrite discovery_scan_mutex.
    + now rewrite discovery_scan_mutex.
  - unfold bind at 1.
    pose proof (collect_inspects_state w ids st) as Hcs.
    destruct (collect_inspects w ids st) as [st1 [infos|e]];
      cbn in Hcs; subst st1; [|reflexivity].
    unfold bind at 1. rewrite sort_inspected_eq.
    unfold commit_mapping, Date_now, bind, consult, record, modify, get.
    now rewrite discovery_scan_mutex.
  - reflexivity.
Qed.

Lemma step_holds_flag w cfg ev m m' :
  (pass_in_progress m = true -> _workerMutex (shared m) = true) ->
  step w cfg ev m = Some m' ->
  pass_in_progress m' = true -> _workerMutex (shared m') = true.
Proof.
  intros Hinv. destruct ev; cbn [step].
  - destruct (_workerMutex (shared m)) eqn:Hm; [now intros [= <-]|].
    destruct (worker m) eqn:Hpc; [|discriminate|discriminate].
    rewrite worker_tick_eq, Hm.
    pose proof (worker_scan_flag w cfg (serviceMap (shared m)) 0 0
                  (with_workerMutex true (shared m)) eq_refl) as H.
    destruct (worker_scan _ _ _ _ _ _) as [st [[| |]|e]];
      intros [= <-]; cbn; auto; discriminate.
  - destruct (discovery m) as [| |first_run candidate pos i k ids|e] eqn:Hpc;
      [| | |discriminate];
      (match goal with |- context [discovery_resume w cfg ?pc ?s] =>
         pose proof (discovery_resume_mutex w cfg pc s) as H;
         destruct (discovery_resume w cfg pc s) as [st [pc'|e]] end;
       intros [= <-]; cbn in H |- *; unfold pass_in_progress in *; cbn;
       intros Hp; rewrite H; auto).
  - destruct (worker m) as [|pos i k cid rotated|pos i k cid rotated] eqn:Hpc;
      [discriminate| |].
    + rewrite worker_resume_stopping.
      specialize (Hinv ltac:(unfold pass_in_progress; now rewrite Hpc)).
      destruct (stop w _ cid); intros [= <-]; cbn; auto; discriminate.
    + rewrite worker_resume_starting.
      specialize (Hinv ltac:(unfold pass_in_progress; now rewrite Hpc)).
      destruct (start w _ cid); [|intros [= <-]; cbn; discriminate].
      cbn zeta.
      match goal with |- context [worker_scan w cfg ?a ?b ?c ?s] =>
        pose proof (worker_scan_flag w cfg a b c s) as H;
        destruct (worker_scan w cfg a b c s) as [st [[| |]|e]] end;
        intros [= <-]; cbn; try discriminate; intros _; apply H; exact Hinv.
Qed.

(** X12: passes never overlap.  In every state the two loops can reach,
    under any interleaving, a worker pass in progress holds the busy
    flag; so the tick of the interval can always be taken, and a tick
    that arrives during a pass changes nothing. *)
Theorem pass_holds_flag w cfg evs m :
  run w cfg evs boot = Some m ->
  (pass_in_progress m = true -> _workerMutex (shared m) = true) /\
  is_Some (step w cfg Tick m) /\
  (pass_in_progress m = true -> step w cfg Tick m = Some m).
Proof.
  intros Hrun.
  assert (pass_in_progress m = true -> _workerMutex (shared m) = true) as Hinv.
  { assert (forall m0,
              (pass_in_progress m0 = true -> _workerMutex (shared m0) = true) ->
              run w cfg evs m0 = Some m ->
              pass_in_progress m = true -> _workerMutex (shared m) = true) as H.
    { clear Hrun. induction evs as [|ev rest IH]; intros m0 H0; cbn.
      - now intros [= <-].
      - destruct (step w cfg ev m0) as [m1|] eqn:Hstep; [|discriminate].
        apply IH. eapply step_holds_flag; eauto. }
    apply (H boot); [discriminate|exact Hrun]. }
  split; [exact Hinv|]. split.
  - cbn [step]. destruct (_workerMutex (shared m)) eqn:Hm; [eauto|].
    destruct (worker m) eqn:Hpc.
    + destruct (worker_tick w cfg (shared m)) as [st [pc|e]]; eauto.
    + specialize (Hinv ltac:(unfold pass_in_progress; now rewrite Hpc)).
      congruence.
    + specialize (Hinv ltac:(unfold pass_in_progress; now rewrite Hpc)).
      congruence.
  - intros Hp. cbn [step]. now rewrite (Hinv Hp).
Qed.

Lemma pass_holds_flag_witness :
  exists m,
    run Sample.web_drifts Sample.cfg
      [DiscoveryResumes; DiscoveryResumes; DiscoveryResumes; Tick] boot = Some m /\
    pass_in_progress m = true /\
    _workerMutex (shared m) = true /\
    step Sample.web_drifts Sample.cfg Tick m = Some m.
Proof.
  eexists. split; [vm_compute; reflexivity|].
  split; [reflexivity|].
  match goal with |- _workerMutex (shared ?m) = true /\ _ =>
    destruct (pass_holds_flag Sample.web_drifts Sample.cfg
                [DiscoveryResumes; DiscoveryResumes; DiscoveryResumes; Tick] m)
      as (H1 & _ & H3) end.
  - vm_compute. reflexivity.
  - split; [apply H1; reflexivity|apply H3; reflexivity].
Defined.

(* --------------------------------------------------------------------- *)
(* Staggering keeps due times apart                                       *)
(* --------------------------------------------------------------------- *)

Lemma sorted_lookup_lt (l : list nat) j k a b :
  StronglySorted lt l -> (j < k)%nat ->
  l !! j = Some a -> l !! k = Some b -> (a < b)%nat.
Proof.
  intros Hs. revert j k. induction Hs as [|x l Hs IH Hall]; intros j k Hjk;
    [discriminate|].
  destruct k as [|k]; [lia|]. destruct j as [|j]; cbn.
  - intros [= <-] Hb. rewrite Forall_forall in Hall. apply Hall.
    eapply list_elem_of_lookup_2. exact Hb.
  - apply IH. lia.
Qed.

Lemma pass_staggered_spread w base distance st st' :
  monotone_clock w -> 0 <= distance ->
  pass_staggered w base distance st st' ->
  spread distance (assigned st st').
Proof.
  intros Hmono Hd (readings & Hs & ->) j k x y Hjk.
  rewrite !list_lookup_imap.
  destruct (readings !! j) as [n|] eqn:Hn; [|discriminate].
  destruct (readings !! k) as [n'|] eqn:Hn'; [|discriminate].
  cbn. intros [= <-] [= <-].
  pose proof (sorted_lookup_lt _ _ _ _ _ Hs Hjk Hn Hn') as Hlt.
  pose proof (Hmono n n' ltac:(lia)) as Hc.
  replace (Z.of_nat (k - j)) with (Z.of_nat k - Z.of_nat j) by lia. nia.
Qed.

(** X13: with a clock that never goes back and a reroll distance that is
    not negative, the due times one pass assigns, of the worker or of
    discovery, are kept apart: the service acted on k-th is due at least
    (k - j) reroll distances after the one acted on j-th. *)
Theorem stagger_keeps_apart w cfg st st' :
  monotone_clock w ->
  0 <= serviceRerollDistance cfg ->
  (forall r, _worker w cfg st = (st', r) ->
             spread (serviceRerollDistance cfg) (assigned st st')) /\
  (forall r, _updateMemory_iteration w cfg st = (st', r) ->
             spread (serviceRerollDistance cfg) (assigned st st')).
Proof.
  intros Hmono Hd. split; intros r Hrun.
  - eapply pass_staggered_spread; eauto. eapply worker_pass_staggered; eauto.
  - eapply pass_staggered_spread; eauto. eapply discovery_pass_staggered; eauto.
Qed.

Lemma calm_monotone t0 pace listed :
  0 <= pace -> monotone_clock (Sample.calm t0 pace listed).
Proof. intros Hp n n' Hn. cbn. nia. Qed.

Lemma stagger_keeps_apart_witness :
  spread (serviceRerollDistance Sample.cfg)
    (assigned (Sample.registry Sample.web_db 0)
       (fst (_worker (Sample.calm 1000 1 []) Sample.cfg
               (Sample.registry Sample.web_db 0)))).
Proof.
  apply (proj1 (stagger_keeps_apart (Sample.calm 1000 1 []) Sample.cfg
                  (Sample.registry Sample.web_db 0)
                  (fst (_worker (Sample.calm 1000 1 []) Sample.cfg
                          (Sample.registry Sample.web_db 0)))
                  (calm_monotone 1000 1 [] ltac:(lia))
                  ltac:(vm_compute; discriminate)) (Ok tt)).
  vm_compute. reflexivity.
Defined.

(* --------------------------------------------------------------------- *)
(* _containerIdDisplay                                                    *)
(* --------------------------------------------------------------------- *)

Lemma slice0_length n s :
  String.length (Js.slice0 n s) = Nat.min n (String.length s).
Proof.
  revert s. induction n as [|n IH]; intros [|c r]; cbn; auto.
Qed.

Lemma slice0_prefix n s : String.prefix (Js.slice0 n s) s = true.
Proof.
  revert s. induction n as [|n IH]; intros [|c r]; cbn; auto.
  destruct (ascii_dec c c); [apply IH|congruence].
Qed.

Lemma slice0_short n s :
  (String.length s <= n)%nat -> Js.slice0 n s = s.
Proof.
  revert s. induction n as [|n IH]; intros [|c r]; cbn; auto; [lia|].
  intros H. f_equal. apply IH. lia.
Qed.

(** X14: the id shown in the log is the first nine characters of the
    container id: a prefix of it, of length nine or of the length of the
    id if that is shorter, in which case it is the whole id; for an
    undefined id the function throws. *)
Theorem containerIdDisplay_prefix (s : string) :
  (exists e, _containerIdDisplay undefined = Throw e) /\
  exists shown,
    _containerIdDisplay (str s) = Ok shown /\
    String.prefix shown s = true /\
    String.length shown = Nat.min 9 (String.length s) /\
    ((String.length s <= 9)%nat -> shown = s).
Proof.
  split; [eexists; reflexivity|].
  exists (Js.slice0 9 s). split; [reflexivity|].
  split; [apply slice0_prefix|]. split; [apply slice0_length|].
  apply slice0_short.
Qed.

Lemma containerIdDisplay_prefix_witness :
  exists shown,
    _containerIdDisplay (str "4f2a9c") = Ok shown /\ shown = "4f2a9c"%string.
Proof.
  destruct (containerIdDisplay_prefix "4f2a9c") as (_ & shown & H1 & _ & _ & H4).
  exists shown. split; [exact H1|]. apply H4. cbn. lia.
Defined.

Lemma reachable_worker_alone_witness :
  exists n,
    run Sample.web_drifts Sample.cfg
      ([DiscoveryResumes; DiscoveryResumes; DiscoveryResumes]
       ++ Tick :: replicate n WorkerResumes) boot
    = Some {| shared :=
                fst (_worker Sample.web_drifts Sample.cfg
                       (shared (default boot
                          (run Sample.web_drifts Sample.cfg
                             [DiscoveryResumes; DiscoveryResumes;
                              DiscoveryResumes] boot))));
              discovery := D_listing;
              worker := W_idle |}.
Proof.
  apply (reachable_worker_alone Sample.web_drifts Sample.cfg
           [DiscoveryResumes; DiscoveryResumes; DiscoveryResumes]
           (default boot
              (run Sample.web_drifts Sample.cfg
                 [DiscoveryResumes; DiscoveryResumes; DiscoveryResumes] boot))
           _ (Ok tt)).
  - vm_compute. reflexivity.
  - reflexivity.
  - vm_compute. reflexivity.
Defined.

(* --------------------------------------------------------------------- *)
(* A pass leaves the services that are not due alone                      *)
(* --------------------------------------------------------------------- *)





(* --------------------------------------------------------------------- *)
(* Remaps that fail                                                       *)
(* --------------------------------------------------------------------- *)

(** X17: a remap is all or nothing, and touches one service only.  If an
    inspection fails, _updateServiceMapping throws having written nothing:
    lists, due times and flag are as before, and only the inspections
    were issued.  If it returns, the service has the list the sort
    produced and the due time clock + initialDebounce + index *
    serviceRerollDistance.  Either way no other service changes. *)
Theorem remap_all_or_nothing w cfg i rootService containerIds st st' r :
  _updateServiceMapping w cfg i rootService containerIds st = (st', r) ->
  (forall k, k <> rootService ->
     map_get (serviceMap st') k = map_get (serviceMap st) k /\
     serviceIntervals st' !! k = serviceIntervals st !! k) /\
  _workerMutex st' = _workerMutex st /\
  match r with
  | Throw _ =>
      serviceMap st' = serviceMap st /\
      serviceIntervals st' = serviceIntervals st /\
      since st st' = map Inspect containerIds
  | Ok _ =>
      exists sorted n,
        map_get (serviceMap st') rootService = Some sorted /\
        length sorted = length containerIds /\
        (consulted st <= n)%nat /\
        serviceIntervals st' !! rootService
        = Some (clock w n + initialDebounce cfg
                + serviceRerollDistance cfg * Z.of_nat i)
  end.
Proof.
  intros Hrun. destruct r as [[]|e].
  - destruct (updateServiceMapping_ok _ _ _ _ _ _ _ Hrun)
      as (st1 & sorted & Hsort & Hm & Hmap & Hiv & _ & Hle & _).
    split; [|split; [exact Hm|]].
    + intros k Hk. rewrite Hmap, Hiv.
      rewrite map_get_set_ne by congruence.
      now rewrite lookup_insert_ne by congruence.
    + exists sorted, (consulted st1). rewrite Hmap, Hiv.
      split; [apply map_get_set_eq|].
      split; [apply (sort_keeps_ids _ _ _ _ _ Hsort)|].
      split; [exact Hle|apply lookup_insert_eq].
  - destruct (updateServiceMapping_throw _ _ _ _ _ _ _ _ Hrun)
      as (Hm & Hmap & Hiv & _ & Hh).
    split; [|split; [exact Hm|]].
    + intros k _. now rewrite Hmap, Hiv.
    + split; [exact Hmap|]. split; [exact Hiv|]. now apply since_app.
Qed.

Lemma remap_all_or_nothing_witness :
  (forall k, k <> "web"%string ->
     map_get
       (serviceMap
          (fst (_updateServiceMapping (Sample.calm 1000 1 []) Sample.cfg 0 "web"
                  [undefined] (Sample.registry Sample.web_db 0)))) k
     = map_get (serviceMap (Sample.registry Sample.web_db 0)) k /\
     serviceIntervals
       (fst (_updateServiceMapping (Sample.calm 1000 1 []) Sample.cfg 0 "web"
               [undefined] (Sample.registry Sample.web_db 0))) !! k
     = serviceIntervals (Sample.registry Sample.web_db 0) !! k) /\
  _workerMutex
    (fst (_updateServiceMapping (Sample.calm 1000 1 []) Sample.cfg 0 "web"
            [undefined] (Sample.registry Sample.web_db 0)))
  = _workerMutex (Sample.registry Sample.web_db 0) /\
  serviceMap
    (fst (_updateServiceMapping (Sample.calm 1000 1 []) Sample.cfg 0 "web"
            [undefined] (Sample.registry Sample.web_db 0)))
  = serviceMap (Sample.registry Sample.web_db 0) /\
  serviceIntervals
    (fst (_updateServiceMapping (Sample.calm 1000 1 []) Sample.cfg 0 "web"
            [undefined] (Sample.registry Sample.web_db 0)))
  = serviceIntervals (Sample.registry Sample.web_db 0) /\
  since (Sample.registry Sample.web_db 0)
    (fst (_updateServiceMapping (Sample.calm 1000 1 []) Sample.cfg 0 "web"
            [undefined] (Sample.registry Sample.web_db 0)))
  = map Inspect [undefined].
Proof.
  apply (remap_all_or_nothing (Sample.calm 1000 1 []) Sample.cfg 0 "web"
           [undefined] (Sample.registry Sample.web_db 0) _
           (Throw "no such container"%string)).
  vm_compute. reflexivity.
Defined.

Lemma first_run_loop_throws w cfg entries :
  forall i st st' e,
    NoDup (map fst entries) ->
    for_of (first_run_body w cfg) entries i st = (st', Throw e) ->
    exists service,
      In service entries /\
      serviceIntervals st' !! fst service = serviceIntervals st !! fst service.
Proof.
  induction entries as [|[k ids] rest IH]; intros i st st' e Hnd.
  - discriminate.
  - cbn in Hnd. apply NoDup_cons in Hnd. destruct Hnd as [Hk Hnd].
    rewrite for_of_cons. unfold first_run_body at 1. unfold bind at 1.
    destruct (_updateServiceMapping w cfg i k ids st) as [s1 [[]|e1]] eqn:Hrun.
    + unfold ret. intros Hrest.
      destruct (IH _ _ _ _ Hnd Hrest) as ([k' ids'] & Hin & Hiv).
      exists (k', ids'). split; [cbn; auto|]. rewrite Hiv. cbn.
      destruct (updateServiceMapping_ok _ _ _ _ _ _ _ Hrun)
        as (st0 & sorted & _ & _ & _ & Hiv1 & _).
      rewrite Hiv1. apply lookup_insert_ne. intros Heq. apply Hk.
      apply list_elem_of_fmap. exists (k', ids'). split; [cbn; congruence|].
      now apply list_elem_of_In.
    + intros [= <- <-]. exists (k, ids). split; [cbn; auto|].
      destruct (updateServiceMapping_throw _ _ _ _ _ _ _ _ Hrun)
        as (_ & _ & Hiv & _).
      now rewrite Hiv.
Qed.

(** X18: a first population that fails leaves the Registry half seeded.
    From the start-up state, when the listing succeeds but the turn ends
    with an exception (an inspection failed), the candidate lists are
    already in the Registry (the same services, the same ids up to
    order), so the Registry is no longer empty, while some service in it
    has no due time.  (The daemon is taken to answer each inspection with
    the container asked for.) *)
Theorem failed_first_population w cfg st' containers e :
  inspect_faithful w ->
  listContainers w 0 = Ok containers ->
  _updateMemory_iteration w cfg initial_state = (st', Throw e) ->
  same_members (populate (services cfg) containers) (serviceMap st') /\
  serviceMap st' <> [] /\
  exists rootService containerIds,
    In (rootService, containerIds) (populate (services cfg) containers) /\
    serviceIntervals st' !! rootService = None.
Proof.
  intros Hw Hlist. rewrite updateMemory_iteration_eq.
  change (_workerMutex initial_state) with false.
  change (consulted initial_state) with 0%nat.
  change (serviceMap initial_state) with (@nil (string * list value)).
  cbv iota. rewrite Hlist. cbv zeta. cbn [length].
  rewrite bool_decide_eq_true_2 by reflexivity.
  destruct (for_of _ _ _ _) as [s1 [i1|e1]] eqn:Hloop; [discriminate|].
  intros [= <- <-].
  match type of Hloop with for_of _ _ _ ?s0 = _ =>
    assert (same_members (populate (services cfg) containers) (serviceMap s0))
      as Hs by apply same_members_refl;
    destruct (remap_loop w _ (populate (services cfg) containers)
                (first_run_body_remaps w cfg Hw) (populate_unique _ _)
                _ _ _ _ _ (fun x Hx => Hx) Hs Hloop) as (H1 & _)
  end.
  destruct (first_run_loop_throws w cfg _ _ _ _ _ (populate_unique _ _) Hloop)
    as ([k ids] & Hin & Hiv).
  split; [exact H1|]. split.
  - destruct H1 as [Hkeys _].
    destruct (populate (services cfg) containers) as [|x l] eqn:E;
      [destruct Hin|].
    intros Hnil. rewrite Hnil in Hkeys. discriminate.
  - exists k, ids. split; [exact Hin|]. cbn in Hiv. rewrite Hiv.
    apply lookup_empty.
Qed.

Lemma failed_first_population_witness :
  same_members
    (populate (services Sample.cfg) [Sample.container "a" "web"])
    (serviceMap
       (fst (_updateMemory_iteration
               {| clock := fun n => Z.of_nat n;
                  listContainers := fun _ => Ok [Sample.container "a" "web"];
                  inspect := fun _ _ => Throw "daemon unreachable"%string;
                  stop := fun _ _ => Ok tt;
                  start := fun _ _ => Ok tt |}
               Sample.cfg initial_state))) /\
  serviceMap
    (fst (_updateMemory_iteration
            {| clock := fun n => Z.of_nat n;
               listContainers := fun _ => Ok [Sample.container "a" "web"];
               inspect := fun _ _ => Throw "daemon unreachable"%string;
               stop := fun _ _ => Ok tt;
               start := fun _ _ => Ok tt |}
            Sample.cfg initial_state)) <> [] /\
  exists rootService containerIds,
    In (rootService, containerIds)
       (populate (services Sample.cfg) [Sample.container "a" "web"]) /\
    serviceIntervals
      (fst (_updateMemory_iteration
              {| clock := fun n => Z.of_nat n;
                 listContainers := fun _ => Ok [Sample.container "a" "web"];
                 inspect := fun _ _ => Throw "daemon unreachable"%string;
                 stop := fun _ _ => Ok tt;
                 start := fun _ _ => Ok tt |}
              Sample.cfg initial_state)) !! rootService = None.
Proof.
  apply (failed_first_population
           {| clock := fun n => Z.of_nat n;
              listContainers := fun _ => Ok [Sample.container "a" "web"];
              inspect := fun _ _ => Throw "daemon unreachable"%string;
              stop := fun _ _ => Ok tt;
              start := fun _ _ => Ok tt |}
           Sample.cfg _ [Sample.container "a" "web"]
           "daemon unreachable"%string).
  - intros n c info. discriminate.
  - reflexivity.
  - vm_compute. reflexivity.
Defined.
